(** * icp_blog: the blog canister of [src/index.ts]

    [src/index.ts] holds two listings of the canister.  The first one
    (lines 1-143) issues post ids through [SecureUUIDGenerator]; its
    [likePost], [updatePost] and [deletePost] have an owner check written
    out, but they test the [Opt] that [postStorage.get] answers with against
    [null] and read [owner] off it, and so throw before they reach the
    check. It is embedded in [Module Secure].  The second one (lines
    145-311) takes the id straight from [uuidv4()], matches the [Opt] on
    [Some] and [None], has no owner check in [updatePost] and [deletePost],
    and is the only one with [getPosts], [getPost] and [commentOnPost]; it
    is embedded in [Module Basic].

    State is passed explicitly: an update call takes the store and returns
    its result together with the store it leaves behind. *)

From Stdlib Require Import ZArith NArith QArith Qround.
From stdpp Require Import gmap strings list fin_maps.

Local Close Scope Q_scope.
Local Open Scope string_scope.
Local Open Scope list_scope.

(** ** Values that come from azle *)

(** A [Principal] is only ever compared through [toString()], its textual
    form, so it is carried as that text. *)
Record Principal := mkPrincipal { toString : string }.

#[global] Instance Principal_eq_dec : EqDecision Principal.
Proof. solve_decision. Defined.

(** [nat64] timestamps are never computed with, only stored. *)
Definition nat64 := N.

(** [Result<T, E>] with its two constructors [Result.Ok] and [Result.Err]. *)
Inductive Result (T E : Type) : Type :=
| Ok (value : T)
| Err (error : E).
Arguments Ok {T E} value.
Arguments Err {T E} error.

(** What the replica hands to a call: [ic.caller()] and [ic.time()]. *)
Record Ic := mkIc { caller : Principal; time : nat64 }.

(** ** Records (lines 7-24, repeated at 151-169) *)

(** [likes] is a JavaScript [number] that starts at 0 and is only ever
    incremented by 1; it is carried as an integer, which is what such a
    counter is below 2^53. [Opt<nat64>] is [option nat64]. *)
Module Post.
Record t := make {
  owner : Principal;
  id : string;
  title : string;
  body : string;
  imageURL : string;
  likes : Z;
  comments : list string;
  created_at : nat64;
  updated_at : option nat64
}.
End Post.

Module PostPayload.
Record t := make {
  title : string;
  body : string;
  imageURL : string
}.
End PostPayload.

(** [!s] on a string: true exactly for the empty string. *)
Definition not_string (s : string) : bool :=
  match s with
  | EmptyString => true
  | String _ _ => false
  end.

(** ** The post store *)

(** Modelled from the spec: [StableBTreeMap] is azle's, not part of
    [src/index.ts]. Section 4.1 gives its contract: [insert] upserts, [get]
    is a point lookup that yields nothing for an absent key, [remove]
    deletes and yields the prior value or nothing, [values] enumerates the
    stored posts. What [get] and [remove] yield is azle's [Opt], the
    object [{Some: post}] or [{None: null}] that lines 199, 262, 281 and 295
    match on and that lines 68 and 94 build with [Opt.None] and [Opt.Some];
    it is carried as an [option]. The size bounds handed to the constructor
    on lines 48 and 187 (44 bytes a key, 1024 bytes a value) are not part of
    that contract and are not modelled. *)
Module StableBTreeMap.
Definition get (key : string) (m : gmap string Post.t) : option Post.t :=
  m !! key.
Definition insert (key : string) (value : Post.t) (m : gmap string Post.t)
  : gmap string Post.t :=
  <[key := value]> m.
Definition remove (key : string) (m : gmap string Post.t)
  : option Post.t * gmap string Post.t :=
  (m !! key, delete key m).
Definition values (m : gmap string Post.t) : list Post.t :=
  (map_to_list m).*2.
End StableBTreeMap.

(** ** Exceptions, and an [Opt] read as if it were a post *)

(** JavaScript's [undefined]. *)
Inductive Undefined := undefined.

(** The exception a call may throw. *)
Inductive Exception := TypeError.

(** What a call comes to: the value it returns, or the exception it throws. *)
Inductive Outcome (T : Type) : Type :=
| Returned (value : T)
| Thrown (exception : Exception).
Arguments Returned {T} value.
Arguments Thrown {T} exception.

(** [x.toString()] for an [x] that is [undefined]: there is nothing to call,
    a [TypeError] is thrown. *)
Definition toString_of_undefined (x : Undefined) : Exception :=
  match x with
  | undefined => TypeError
  end.

Module Opt.
(** [opt === null]. An [Opt] is an object, with or without a post in it,
    and an object is not [null]. *)
Definition is_null {A : Type} (opt : option A) : bool :=
  match opt with
  | Some _ => false
  | None => false
  end.

(** [opt.owner]. The object has the one property [Some], or the one
    property [None]; reading any other property off it gives [undefined]. *)
Definition owner {A : Type} (opt : option A) : Undefined :=
  match opt with
  | Some _ => undefined
  | None => undefined
  end.
End Opt.

(** ** First listing (lines 1-143) *)

Module Secure.

(** [class SecureUUIDGenerator] (lines 27-39): its one field. *)
Record SecureUUIDGenerator := mkGenerator { generatedUUIDs : gset string }.

(** The [do ... while] of [generateUUID] (lines 32-34). [draws] are the
    values the successive calls of [uuidv4()] return; the loop takes the
    first one that is not in [generated] and hands back the draws it has
    not used. [None]: every draw at hand was taken already, the loop is
    still running. *)
Fixpoint generateUUID_loop (generated : gset string) (draws : list string)
  : option (string * list string) :=
  match draws with
  | [] => None
  | newUUID :: rest =>
      if bool_decide (newUUID ∈ generated)
      then generateUUID_loop generated rest
      else Some (newUUID, rest)
  end.

(** [generateUUID] (lines 30-38). *)
Definition generateUUID (g : SecureUUIDGenerator) (draws : list string)
  : option (string * SecureUUIDGenerator * list string) :=
  match generateUUID_loop (generatedUUIDs g) draws with
  | Some (newUUID, rest) =>
      Some (newUUID, mkGenerator ({[newUUID]} ∪ generatedUUIDs g), rest)
  | None => None
  end.

(** The two module-level objects: [secureUUIDGenerator] (line 41) and
    [postStorage] (line 48). *)
Record State := mkState {
  secureUUIDGenerator : SecureUUIDGenerator;
  postStorage : gmap string Post.t
}.

(** [addPost] (lines 54-76). The result is [None] while [generateUUID] has
    not returned. *)
Definition addPost (ic : Ic) (payload : PostPayload.t) (draws : list string)
    (st : State)
  : option (Result Post.t string * State * list string) :=
  let title := PostPayload.title payload in
  let body := PostPayload.body payload in
  let imageURL := PostPayload.imageURL payload in
  if not_string title || not_string body || not_string imageURL then
    Some (Err "Missing required fields", st, draws)
  else
    match generateUUID (secureUUIDGenerator st) draws with
    | None => None
    | Some (newUUID, g, rest) =>
        let post :=
          {| Post.owner := caller ic;
             Post.id := newUUID;
             Post.likes := 0;
             Post.comments := [];
             Post.created_at := time ic;
             Post.updated_at := None;
             Post.title := title;
             Post.body := body;
             Post.imageURL := imageURL |} in
        Some (Ok post,
              mkState g (StableBTreeMap.insert (Post.id post) post (postStorage st)),
              rest)
    end.

(** [likePost] (lines 80-99). [post] is the [Opt] that [get] answers with.
    Line 83 tests it against [null]; line 87 evaluates
    [post.owner.toString()], and that throws, so that lines 88-98 are not
    reached. Nothing was written before. *)
Definition likePost (ic : Ic) (id : string) (st : State)
  : Outcome (Result Post.t string) * State :=
  let post := StableBTreeMap.get id (postStorage st) in
  if Opt.is_null post then
    (Returned
       (Err ("Couldn't update post with id=" +:+ id +:+ ". Post not found")),
     st)
  else
    (Thrown (toString_of_undefined (Opt.owner post)), st).

(** [updatePost] (lines 105-124): line 108 tests the [Opt] against [null],
    line 112 throws on [post.owner.toString()], lines 113-123 are not
    reached. *)
Definition updatePost (ic : Ic) (id : string) (payload : PostPayload.t)
    (st : State)
  : Outcome (Result Post.t string) * State :=
  let post := StableBTreeMap.get id (postStorage st) in
  if Opt.is_null post then
    (Returned
       (Err ("Couldn't update post with id=" +:+ id +:+ ". Post not found")),
     st)
  else
    (Thrown (toString_of_undefined (Opt.owner post)), st).

(** [deletePost] (lines 130-143): line 133 tests the [Opt] against [null],
    line 137 throws on [post.owner.toString()], the [remove] of line 141 is
    not reached. *)
Definition deletePost (ic : Ic) (id : string) (st : State)
  : Outcome (Result Post.t string) * State :=
  let post := StableBTreeMap.get id (postStorage st) in
  if Opt.is_null post then
    (Returned
       (Err ("Couldn't delete post with id=" +:+ id +:+ ". Post not found")),
     st)
  else
    (Thrown (toString_of_undefined (Opt.owner post)), st).

(** The update calls of this listing ([$update], lines 53, 79, 104, 129),
    in the order the replica delivers them: each runs to its end, or to the
    exception it throws, on the state the one before left. *)
Inductive Call :=
| AddPost (payload : PostPayload.t)
| LikePost (id : string)
| UpdatePost (id : string) (payload : PostPayload.t)
| DeletePost (id : string).

Definition call (ic : Ic) (c : Call) (draws : list string) (st : State)
  : option (Outcome (Result Post.t string) * State * list string) :=
  match c with
  | AddPost payload =>
      match addPost ic payload draws st with
      | Some (result, st', draws') => Some (Returned result, st', draws')
      | None => None
      end
  | LikePost id =>
      let '(outcome, st') := likePost ic id st in Some (outcome, st', draws)
  | UpdatePost id payload =>
      let '(outcome, st') := updatePost ic id payload st in
      Some (outcome, st', draws)
  | DeletePost id =>
      let '(outcome, st') := deletePost ic id st in Some (outcome, st', draws)
  end.

(** A sequence of calls, with the log of what each one came to. *)
Fixpoint run (calls : list (Ic * Call)) (draws : list string) (st : State)
  : option (list (Call * Outcome (Result Post.t string)) * State
            * list string) :=
  match calls with
  | [] => Some ([], st, draws)
  | (ic, c) :: later =>
      match call ic c draws st with
      | None => None
      | Some (outcome, st', draws') =>
          match run later draws' st' with
          | None => None
          | Some (log, st'', draws'') =>
              Some ((c, outcome) :: log, st'', draws'')
          end
      end
  end.

(** The id of the post a logged call created, if it was a successful
    [addPost]. *)
Definition created (entry : Call * Outcome (Result Post.t string))
  : option string :=
  match entry with
  | (AddPost _, Returned (Ok post)) => Some (Post.id post)
  | _ => None
  end.

(** The ids of the posts a sequence of calls created, in order. *)
Definition created_ids (calls : list (Ic * Call)) (draws : list string)
    (st : State) : option (list string) :=
  match run calls draws st with
  | Some (log, _, _) => Some (omap created log)
  | None => None
  end.

End Secure.

(** ** Second listing (lines 145-311) *)

Module Basic.

(** [getPosts] (lines 191-193). *)
Definition getPosts (postStorage : gmap string Post.t)
  : Result (list Post.t) string :=
  Ok (StableBTreeMap.values postStorage).

(** [getPost] (lines 198-203). *)
Definition getPost (id : string) (postStorage : gmap string Post.t)
  : Result Post.t string :=
  match StableBTreeMap.get id postStorage with
  | Some post => Ok post
  | None => Err ("a post with id=" +:+ id +:+ " not found")
  end.

(** [addPost] (lines 208-231). [uuid] is what the one call of [uuidv4()]
    on line 219 returns. *)
Definition addPost (ic : Ic) (payload : PostPayload.t) (uuid : string)
    (postStorage : gmap string Post.t)
  : Result Post.t string * gmap string Post.t :=
  let title := PostPayload.title payload in
  let body := PostPayload.body payload in
  let imageURL := PostPayload.imageURL payload in
  if not_string title || not_string body || not_string imageURL then
    (Err "Missing required fields", postStorage)
  else
    let post :=
      {| Post.owner := caller ic;
         Post.id := uuid;
         Post.likes := 0;
         Post.comments := [];
         Post.created_at := time ic;
         Post.updated_at := None;
         Post.title := title;
         Post.body := body;
         Post.imageURL := imageURL |} in
    (Ok post, StableBTreeMap.insert (Post.id post) post postStorage).

(** [commentOnPost] (lines 237-253). *)
Definition commentOnPost (id : string) (comment : string)
    (postStorage : gmap string Post.t)
  : Result Post.t string * gmap string Post.t :=
  match StableBTreeMap.get id postStorage with
  | Some post =>
      let updatedPost :=
        {| Post.owner := Post.owner post;
           Post.id := Post.id post;
           Post.title := Post.title post;
           Post.body := Post.body post;
           Post.imageURL := Post.imageURL post;
           Post.likes := Post.likes post;
           Post.comments := Post.comments post ++ [comment];
           Post.created_at := Post.created_at post;
           Post.updated_at := Post.updated_at post |} in
      (Ok updatedPost, StableBTreeMap.insert id updatedPost postStorage)
  | None => (Err "Post not found.", postStorage)
  end.

(** [likePost] (lines 261-276). *)
Definition likePost (ic : Ic) (id : string) (postStorage : gmap string Post.t)
  : Result Post.t string * gmap string Post.t :=
  match StableBTreeMap.get id postStorage with
  | Some post =>
      if String.eqb (toString (Post.owner post)) (toString (caller ic)) then
        (Err "Owners cannot like their post", postStorage)
      else
        let updatedPost :=
          {| Post.owner := Post.owner post;
             Post.id := Post.id post;
             Post.title := Post.title post;
             Post.body := Post.body post;
             Post.imageURL := Post.imageURL post;
             Post.likes := (Post.likes post + 1)%Z;
             Post.comments := Post.comments post;
             Post.created_at := Post.created_at post;
             Post.updated_at := Some (time ic) |} in
        (Ok updatedPost, StableBTreeMap.insert (Post.id post) updatedPost postStorage)
  | None =>
      (Err ("couldn't update a post with id=" +:+ id +:+ ". post not found"),
       postStorage)
  end.

(** [updatePost] (lines 280-289). *)
Definition updatePost (ic : Ic) (id : string) (payload : PostPayload.t)
    (postStorage : gmap string Post.t)
  : Result Post.t string * gmap string Post.t :=
  match StableBTreeMap.get id postStorage with
  | Some post =>
      let updatedPost :=
        {| Post.owner := Post.owner post;
           Post.id := Post.id post;
           Post.title := PostPayload.title payload;
           Post.body := PostPayload.body payload;
           Post.imageURL := PostPayload.imageURL payload;
           Post.likes := Post.likes post;
           Post.comments := Post.comments post;
           Post.created_at := Post.created_at post;
           Post.updated_at := Some (time ic) |} in
      (Ok updatedPost, StableBTreeMap.insert (Post.id post) updatedPost postStorage)
  | None =>
      (Err ("couldn't update a post with id=" +:+ id +:+ ". post not found"),
       postStorage)
  end.

(** [deletePost] (lines 294-299). *)
Definition deletePost (ic : Ic) (id : string) (postStorage : gmap string Post.t)
  : Result Post.t string * gmap string Post.t :=
  match StableBTreeMap.remove id postStorage with
  | (Some deletedPost, postStorage') => (Ok deletedPost, postStorage')
  | (None, postStorage') =>
      (Err ("couldn't delete a post with id=" +:+ id +:+ ". post not found."),
       postStorage')
  end.

End Basic.


(** ** Stores that key every post by its own id *)

(** [addPost] inserts a post under [post.id]; [likePost] and [updatePost]
    write back under [post.id] and [commentOnPost] under the [id] it was
    called with. Both agree on a store where each key is the id of the post
    it holds. *)
Definition keyed_by_id (m : gmap string Post.t) : Prop :=
  ∀ key post, m !! key = Some post → Post.id post = key.

(** ** What a post keeps for life *)

(** Two versions of a post agree on [owner], [id] and [created_at]. *)
Definition same_origin (before after : Post.t) : Prop :=
  Post.owner after = Post.owner before
  ∧ Post.id after = Post.id before
  ∧ Post.created_at after = Post.created_at before.

(** Every post of [store] is still in [store'], under the same key and with
    the same origin. *)
Definition keeps_origin (store store' : gmap string Post.t) : Prop :=
  ∀ key before, store !! key = Some before →
    ∃ after, store' !! key = Some after ∧ same_origin before after.

(** The post a call returned, if it returned one, has the origin of
    [post]. *)
Definition returns_origin_of (post : Post.t) (out : Result Post.t string)
  : Prop :=
  ∀ result, out = Ok result → same_origin post result.

(** ** Ids on record, and calls that rewrite one post *)

(** Every key of the store is an id the generator has issued. It holds when
    the canister starts on an empty store and, as [addPost] of lines 54-76
    is the only call that adds a key, it is kept from then on. *)
Definition ids_on_record (st : Secure.State) : Prop :=
  ∀ key, is_Some (Secure.postStorage st !! key) →
    key ∈ Secure.generatedUUIDs (Secure.secureUUIDGenerator st).

(** [store'] has the keys of [store] and differs from it at most in what
    it holds under [id]. *)
Definition only_touches (id : string) (store store' : gmap string Post.t)
  : Prop :=
  dom store' = dom store
  ∧ ∀ other, other ≠ id → store' !! other = store !! other.

(** ** The [crypto.getRandomValues] stand-in (lines 302-311) *)

(** Storing a number into a [Uint8Array] keeps it modulo 256. *)
Definition ToUint8 (n : Z) : Z := (n `mod` 256)%Z.

(** The [for] loop of lines 306-308 from index [i] on, with [count] slots
    still to fill. [random k] is what the call of [Math.random()] made for
    slot [k] returns: a double, which is a rational number; multiplying a
    double below 1 by 256 is exact, and so is [Math.floor]. *)
Fixpoint fill_random (random : nat → Q) (i count : nat) (array : list Z)
  : list Z :=
  match count with
  | O => array
  | S count' =>
      fill_random random (S i) count'
        (<[i := ToUint8 (Qfloor (random i * 256))]> array)
  end.

(** [getRandomValues] (lines 303-311): a fresh [Uint8Array(32)], all zero,
    filled by the loop and returned; the array it is called with is not
    looked at. *)
Definition getRandomValues (random : nat → Q) : list Z :=
  let array := replicate 32 0%Z in
  fill_random random 0 (length array) array.

(** ** Sample data for the closed examples *)

Module Sample.
Definition alice : Principal := mkPrincipal "rrkah-fqaaa-aaaaa-aaaaq-cai".
Definition bob : Principal := mkPrincipal "ryjl3-tyaaa-aaaaa-aaaba-cai".
Definition by_alice : Ic := mkIc alice 200%N.
Definition by_bob : Ic := mkIc bob 300%N.
Definition id1 : string := "110ec58a-a0f2-4ac4-8393-c866d813b8d1".
Definition id2 : string := "7c9e6679-7425-40de-944b-e07fc1f90ae7".
Definition id3 : string := "f47ac10b-58cc-4372-a567-0e02b2c3d479".
Definition post1 : Post.t :=
  {| Post.owner := alice; Post.id := id1; Post.title := "T";
     Post.body := "B"; Post.imageURL := "I"; Post.likes := 0;
     Post.comments := ["first"]; Post.created_at := 100%N;
     Post.updated_at := None |}.
Definition store1 : gmap string Post.t := {[ id1 := post1 ]}.
Definition state1 : Secure.State :=
  Secure.mkState (Secure.mkGenerator {[ id1 ]}) store1.
Definition payload1 : PostPayload.t := PostPayload.make "T2" "B2" "I2".
Definition no_title : PostPayload.t := PostPayload.make "" "B2" "I2".
Definition state0 : Secure.State := Secure.mkState (Secure.mkGenerator ∅) ∅.
Definition new_post (who : Ic) : Post.t :=
  {| Post.owner := caller who; Post.id := id2; Post.title := "T2";
     Post.body := "B2"; Post.imageURL := "I2"; Post.likes := 0;
     Post.comments := []; Post.created_at := time who;
     Post.updated_at := None |}.
End Sample.

(** A session of the first listing: alice posts, bob calls [likePost] on
    the post, alice calls [updatePost] and [deletePost] on it, bob posts;
    [uuidv4()] returns [id2] twice and then [id3]. *)
Module Scenario.
Definition calls : list (Ic * Secure.Call) :=
  [ (Sample.by_alice, Secure.AddPost Sample.payload1);
    (Sample.by_bob, Secure.LikePost Sample.id2);
    (Sample.by_alice, Secure.UpdatePost Sample.id2 Sample.payload1);
    (Sample.by_alice, Secure.DeletePost Sample.id2);
    (Sample.by_bob, Secure.AddPost Sample.payload1) ].
Definition draws : list string := [Sample.id2; Sample.id2; Sample.id3].
End Scenario.

(** * Properties *)

(** ** Comparing principals, testing strings *)

Lemma toString_inj (a b : Principal) : toString a = toString b ↔ a = b.
Proof. destruct a, b; simpl; split; congruence. Qed.

Lemma eqb_toString_true (a b : Principal) :
  String.eqb (toString a) (toString b) = true ↔ a = b.
Proof. rewrite String.eqb_eq. apply toString_inj. Qed.

Lemma eqb_toString_same (a : Principal) :
  String.eqb (toString a) (toString a) = true.
Proof. by apply eqb_toString_true. Qed.

Lemma eqb_toString_diff (a b : Principal) :
  a ≠ b → String.eqb (toString a) (toString b) = false.
Proof.
  intros Hne. apply not_true_is_false. by rewrite eqb_toString_true.
Qed.

Lemma not_string_spec (s : string) : not_string s = true ↔ s = "".
Proof. by destruct s. Qed.

Lemma not_string_nonempty (s : string) : s ≠ "" → not_string s = false.
Proof. by destruct s. Qed.

Lemma missing_field (payload : PostPayload.t) :
  PostPayload.title payload = "" ∨ PostPayload.body payload = ""
    ∨ PostPayload.imageURL payload = "" →
  not_string (PostPayload.title payload)
    || not_string (PostPayload.body payload)
    || not_string (PostPayload.imageURL payload) = true.
Proof.
  intros [H | [H | H]]; rewrite H; simpl;
    rewrite ?orb_true_r; reflexivity.
Qed.

Lemma all_fields (payload : PostPayload.t) :
  PostPayload.title payload ≠ "" → PostPayload.body payload ≠ "" →
  PostPayload.imageURL payload ≠ "" →
  not_string (PostPayload.title payload)
    || not_string (PostPayload.body payload)
    || not_string (PostPayload.imageURL payload) = false.
Proof. intros Ht Hb Hi. by rewrite !not_string_nonempty. Qed.

(** ** [likePost], [updatePost] and [deletePost] of the first listing *)

(** Each of the three throws, whatever it is called with and whatever the
    store holds, and leaves the state as it found it. *)
Lemma secure_likePost_throws (ic : Ic) (id : string) (st : Secure.State) :
  Secure.likePost ic id st = (Thrown TypeError, st).
Proof.
  unfold Secure.likePost.
  by destruct (StableBTreeMap.get id (Secure.postStorage st)).
Qed.

Lemma secure_updatePost_throws (ic : Ic) (id : string)
    (payload : PostPayload.t) (st : Secure.State) :
  Secure.updatePost ic id payload st = (Thrown TypeError, st).
Proof.
  unfold Secure.updatePost.
  by destruct (StableBTreeMap.get id (Secure.postStorage st)).
Qed.

Lemma secure_deletePost_throws (ic : Ic) (id : string) (st : Secure.State) :
  Secure.deletePost ic id st = (Thrown TypeError, st).
Proof.
  unfold Secure.deletePost.
  by destruct (StableBTreeMap.get id (Secure.postStorage st)).
Qed.

(** ** [updatePost] and [deletePost] of the second listing *)

(** [updatePost] of lines 280-289 never looks at the caller: whoever calls
    it on a stored post gets the post overwritten. *)
Lemma basic_updatePost_any_caller (ic : Ic) (id : string)
    (payload : PostPayload.t) (post : Post.t) (store : gmap string Post.t) :
  store !! id = Some post →
  ∃ updated,
    Basic.updatePost ic id payload store
    = (Ok updated, <[Post.id post := updated]> store)
    ∧ Post.title updated = PostPayload.title payload
    ∧ Post.body updated = PostPayload.body payload
    ∧ Post.imageURL updated = PostPayload.imageURL payload
    ∧ Post.updated_at updated = Some (time ic).
Proof.
  intros Hst. unfold Basic.updatePost, StableBTreeMap.get. rewrite Hst.
  eexists. split; [reflexivity | by repeat split].
Qed.

(** [deletePost] of lines 294-299 removes first and never looks at the
    caller either. *)
Lemma basic_deletePost_any_caller (ic : Ic) (id : string) (post : Post.t)
    (store : gmap string Post.t) :
  store !! id = Some post →
  Basic.deletePost ic id store = (Ok post, delete id store).
Proof.
  intros Hst. unfold Basic.deletePost, StableBTreeMap.remove. by rewrite Hst.
Qed.

(** C1. [updatePost] is to succeed only for the owner of the post and to
    answer a caller who is not the owner with an error that leaves the post
    as it was. On the store that holds alice's post under [Sample.id1],
    bob's call of the [updatePost] of lines 280-289, which has no owner
    check, succeeds and overwrites the title, body and image URL of alice's
    post. His call of the [updatePost] of lines 105-124, which has the
    check written on lines 112-114, returns no error either: it throws, and
    the store is as before. *)
Theorem updatePost_by_non_owner :
  Sample.store1 !! Sample.id1 = Some Sample.post1
  ∧ caller Sample.by_bob ≠ Post.owner Sample.post1
  ∧ (Basic.updatePost Sample.by_bob Sample.id1 Sample.payload1 Sample.store1).1
    = Ok {| Post.owner := Sample.alice; Post.id := Sample.id1; Post.title := "T2";
            Post.body := "B2"; Post.imageURL := "I2"; Post.likes := 0;
            Post.comments := ["first"]; Post.created_at := 100%N;
            Post.updated_at := Some 300%N |}
  ∧ (Basic.updatePost Sample.by_bob Sample.id1 Sample.payload1 Sample.store1).2
      !! Sample.id1
    = Some {| Post.owner := Sample.alice; Post.id := Sample.id1; Post.title := "T2";
              Post.body := "B2"; Post.imageURL := "I2"; Post.likes := 0;
              Post.comments := ["first"]; Post.created_at := 100%N;
              Post.updated_at := Some 300%N |}
  ∧ Secure.updatePost Sample.by_bob Sample.id1 Sample.payload1 Sample.state1
    = (Thrown TypeError, Sample.state1).
Proof.
  split; [reflexivity|]. split; [discriminate|].
  split; [reflexivity|]. split; [reflexivity|].
  apply secure_updatePost_throws.
Qed.

(** C2. [deletePost] is to remove the post only for its owner and to answer
    a caller who is not the owner with an error that leaves the post where
    it is. On the store that holds alice's post under [Sample.id1], bob's
    call of the [deletePost] of lines 294-299, which removes without looking
    at the caller, returns alice's post and leaves the store without it.
    His call of the [deletePost] of lines 130-143, which has the check
    written on lines 137-139, returns no error either: it throws, and the
    store is as before. *)
Theorem deletePost_by_non_owner :
  Sample.store1 !! Sample.id1 = Some Sample.post1
  ∧ caller Sample.by_bob ≠ Post.owner Sample.post1
  ∧ (Basic.deletePost Sample.by_bob Sample.id1 Sample.store1).1 = Ok Sample.post1
  ∧ (Basic.deletePost Sample.by_bob Sample.id1 Sample.store1).2 !! Sample.id1 = None
  ∧ Secure.deletePost Sample.by_bob Sample.id1 Sample.state1
    = (Thrown TypeError, Sample.state1).
Proof.
  split; [reflexivity|]. split; [discriminate|].
  split; [reflexivity|]. split; [reflexivity|].
  apply secure_deletePost_throws.
Qed.

(** ** [likePost] *)

(** What [likePost] of lines 261-276 does with a stored post: called by
    anyone but the owner it returns the post with [likes] one higher and
    [updated_at] set to the time of the call, every other field as it was,
    and stores it under the post's id; called by the owner it returns an
    error and the store is as before. *)
Lemma basic_likePost_stored (ic : Ic) (id : string) (post : Post.t)
    (store : gmap string Post.t) :
  store !! id = Some post →
  let liked :=
    {| Post.owner := Post.owner post;
       Post.id := Post.id post;
       Post.title := Post.title post;
       Post.body := Post.body post;
       Post.imageURL := Post.imageURL post;
       Post.likes := (Post.likes post + 1)%Z;
       Post.comments := Post.comments post;
       Post.created_at := Post.created_at post;
       Post.updated_at := Some (time ic) |} in
  (caller ic ≠ Post.owner post →
     Basic.likePost ic id store = (Ok liked, <[Post.id post := liked]> store))
  ∧ (caller ic = Post.owner post →
     Basic.likePost ic id store = (Err "Owners cannot like their post", store)).
Proof.
  intros Hst liked.
  unfold Basic.likePost, StableBTreeMap.get, StableBTreeMap.insert.
  rewrite Hst. split.
  - intros Hne.
    by rewrite (eqb_toString_diff (Post.owner post) (caller ic)).
  - intros ->. by rewrite eqb_toString_same.
Qed.

(** C3. [likePost] called by someone who is not the owner is to raise the
    likes of the post by one and set [updated_at]. On the store that holds
    alice's post under [Sample.id1], with no likes, bob's call of the
    [likePost] of lines 80-99 throws and the post stays as it was, without
    a like. The [likePost] of lines 261-276 does on the same call what is
    asked: it returns and stores the post with one like and [updated_at]
    set to the time of the call, and it refuses alice, the owner, leaving
    the store as it was. *)
Theorem likePost_first_listing_throws :
  Sample.store1 !! Sample.id1 = Some Sample.post1
  ∧ caller Sample.by_bob ≠ Post.owner Sample.post1
  ∧ Post.likes Sample.post1 = 0%Z
  ∧ Secure.likePost Sample.by_bob Sample.id1 Sample.state1
    = (Thrown TypeError, Sample.state1)
  ∧ Secure.postStorage Sample.state1 !! Sample.id1 = Some Sample.post1
  ∧ (Basic.likePost Sample.by_bob Sample.id1 Sample.store1).1
    = Ok {| Post.owner := Sample.alice; Post.id := Sample.id1; Post.title := "T";
            Post.body := "B"; Post.imageURL := "I"; Post.likes := 1;
            Post.comments := ["first"]; Post.created_at := 100%N;
            Post.updated_at := Some 300%N |}
  ∧ (Basic.likePost Sample.by_bob Sample.id1 Sample.store1).2 !! Sample.id1
    = Some {| Post.owner := Sample.alice; Post.id := Sample.id1; Post.title := "T";
              Post.body := "B"; Post.imageURL := "I"; Post.likes := 1;
              Post.comments := ["first"]; Post.created_at := 100%N;
              Post.updated_at := Some 300%N |}
  ∧ Basic.likePost Sample.by_alice Sample.id1 Sample.store1
    = (Err "Owners cannot like their post", Sample.store1).
Proof.
  split; [reflexivity|]. split; [discriminate|]. split; [reflexivity|].
  split; [apply secure_likePost_throws|].
  repeat split.
Qed.

(** ** Post ids *)

(** *** [SecureUUIDGenerator] of the first listing *)

(** What the loop returns was not generated before; the draws it passed
    over all were. *)
Lemma generateUUID_loop_fresh (generated : gset string) (draws : list string)
    (newUUID : string) (rest : list string) :
  Secure.generateUUID_loop generated draws = Some (newUUID, rest) →
  (newUUID ∉ generated)
  ∧ (∃ skipped : list string,
       draws = skipped ++ newUUID :: rest
       ∧ Forall (λ u, u ∈ generated) skipped).
Proof.
  induction draws as [|u draws IH]; simpl; [discriminate|].
  case_bool_decide as Hin.
  - intros Hloop. destruct (IH Hloop) as (Hfresh & skipped & -> & Hsk).
    split; [done|]. exists (u :: skipped). split; [done|]. by constructor.
  - intros [= <- <-]. split; [done|]. by exists [].
Qed.

(** The loop ends as soon as [uuidv4()] returns a value not generated
    before. *)
Lemma generateUUID_loop_returns (generated : gset string) (draws : list string) :
  (∃ u, u ∈ draws ∧ u ∉ generated) →
  is_Some (Secure.generateUUID_loop generated draws).
Proof.
  intros (u & Hin & Hfresh).
  induction draws as [|d draws IH]; simpl.
  - by apply elem_of_nil in Hin.
  - case_bool_decide as Hd; [|by eexists].
    apply IH. apply elem_of_cons in Hin as [->|Hin]; [done|exact Hin].
Qed.

Lemma generateUUID_fresh (g g' : Secure.SecureUUIDGenerator)
    (draws rest : list string) (newUUID : string) :
  Secure.generateUUID g draws = Some (newUUID, g', rest) →
  (newUUID ∉ Secure.generatedUUIDs g)
  ∧ Secure.generatedUUIDs g' = {[newUUID]} ∪ Secure.generatedUUIDs g.
Proof.
  unfold Secure.generateUUID.
  destruct (Secure.generateUUID_loop _ draws) as [[u r]|] eqn:Hloop; [|discriminate].
  intros [= <- <- <-]. apply generateUUID_loop_fresh in Hloop as [Hfresh _].
  by split.
Qed.

Lemma generateUUID_returns (g : Secure.SecureUUIDGenerator) (draws : list string) :
  (∃ u, u ∈ draws ∧ u ∉ Secure.generatedUUIDs g) →
  is_Some (Secure.generateUUID g draws).
Proof.
  intros Hex. unfold Secure.generateUUID.
  destruct (generateUUID_loop_returns _ _ Hex) as [[u r] ->]. by eexists.
Qed.

(** [addPost] of lines 54-76 gives a new post an id the generator had not
    issued, and records it. *)
Lemma secure_addPost_id_fresh (ic : Ic) (payload : PostPayload.t)
    (draws rest : list string) (st st' : Secure.State) (post : Post.t) :
  Secure.addPost ic payload draws st = Some (Ok post, st', rest) →
  (Post.id post ∉ Secure.generatedUUIDs (Secure.secureUUIDGenerator st))
  ∧ Secure.generatedUUIDs (Secure.secureUUIDGenerator st')
    = {[Post.id post]} ∪ Secure.generatedUUIDs (Secure.secureUUIDGenerator st).
Proof.
  unfold Secure.addPost. case_match; [discriminate|].
  destruct (Secure.generateUUID _ draws) as [[[u g] r]|] eqn:Hgen; [|discriminate].
  intros [= <- <- <-]. simpl. by apply generateUUID_fresh in Hgen.
Qed.

(** A call that is refused issues no id. *)
Lemma secure_addPost_err_state (ic : Ic) (payload : PostPayload.t)
    (draws rest : list string) (st st' : Secure.State) (e : string) :
  Secure.addPost ic payload draws st = Some (Err e, st', rest) →
  st' = st ∧ rest = draws.
Proof.
  unfold Secure.addPost. case_match.
  - by intros [= <- <- <-].
  - destruct (Secure.generateUUID _ draws) as [[[u g] r]|]; discriminate.
Qed.

(** One call: the ids on record only grow, by the id of the post created if
    one was. *)
Lemma secure_call_generated (ic : Ic) (c : Secure.Call)
    (draws rest : list string) (st st' : Secure.State)
    (outcome : Outcome (Result Post.t string)) :
  Secure.call ic c draws st = Some (outcome, st', rest) →
  match Secure.created (c, outcome) with
  | Some newUUID =>
      (newUUID ∉ Secure.generatedUUIDs (Secure.secureUUIDGenerator st))
      ∧ Secure.generatedUUIDs (Secure.secureUUIDGenerator st')
        = {[newUUID]} ∪ Secure.generatedUUIDs (Secure.secureUUIDGenerator st)
  | None =>
      Secure.generatedUUIDs (Secure.secureUUIDGenerator st')
      = Secure.generatedUUIDs (Secure.secureUUIDGenerator st)
  end.
Proof.
  destruct c as [payload|id|id payload|id]; simpl.
  - destruct (Secure.addPost ic payload draws st) as [[[result s] d]|] eqn:Hadd;
      [|discriminate].
    intros [= <- <- <-]. destruct result as [post|e].
    + by apply secure_addPost_id_fresh in Hadd.
    + by apply secure_addPost_err_state in Hadd as [-> _].
  - rewrite secure_likePost_throws. by intros [= <- <- <-].
  - rewrite secure_updatePost_throws. by intros [= <- <- <-].
  - rewrite secure_deletePost_throws. by intros [= <- <- <-].
Qed.

(** Any sequence of calls of the first listing: the ids of the posts it
    created are pairwise distinct, were not on record before, and are on
    record afterwards. *)
Lemma secure_run_ids_distinct (calls : list (Ic * Secure.Call))
    (draws rest : list string) (st st' : Secure.State)
    (log : list (Secure.Call * Outcome (Result Post.t string))) :
  Secure.run calls draws st = Some (log, st', rest) →
  NoDup (omap Secure.created log)
  ∧ Secure.generatedUUIDs (Secure.secureUUIDGenerator st')
    = list_to_set (omap Secure.created log)
      ∪ Secure.generatedUUIDs (Secure.secureUUIDGenerator st)
  ∧ ∀ u, u ∈ omap Secure.created log →
         u ∉ Secure.generatedUUIDs (Secure.secureUUIDGenerator st).
Proof.
  revert draws st log.
  induction calls as [|[ic c] later IH]; intros draws st log; simpl.
  - intros [= <- <- <-]. simpl. split; [constructor|].
    split; [set_solver|]. intros u Hu. by apply elem_of_nil in Hu.
  - destruct (Secure.call ic c draws st) as [[[result st1] draws1]|] eqn:Hcall;
      [|discriminate].
    destruct (Secure.run later draws1 st1) as [[[log1 st2] draws2]|] eqn:Hrun;
      [|discriminate].
    intros [= <- <- <-].
    destruct (IH _ _ _ Hrun) as (Hnd & Hgen & Hnew).
    apply secure_call_generated in Hcall.
    change (omap Secure.created ((c, result) :: log1))
      with (match Secure.created (c, result) with
            | Some u => u :: omap Secure.created log1
            | None => omap Secure.created log1
            end).
    destruct (Secure.created (c, result)) as [u|].
    + destruct Hcall as [Hfresh Hg1]. rewrite Hg1 in Hgen, Hnew.
      split; [|split].
      * constructor; [|done]. intros Hin. apply Hnew in Hin. set_solver.
      * rewrite Hgen. rewrite list_to_set_cons. set_solver.
      * intros v [->|Hv]%elem_of_cons; [done|]. apply Hnew in Hv. set_solver.
    + rewrite Hcall in Hgen, Hnew. by repeat split.
Qed.

(** *** [uuidv4()] taken as it comes, in the second listing *)

(** [addPost] of lines 208-231 stores the post under whatever [uuidv4()]
    returned, on top of a post that may be there already. *)
Lemma basic_addPost_id (ic : Ic) (payload : PostPayload.t) (uuid : string)
    (store store' : gmap string Post.t) (post : Post.t) :
  Basic.addPost ic payload uuid store = (Ok post, store') →
  Post.id post = uuid ∧ store' = <[uuid := post]> store.
Proof.
  unfold Basic.addPost. case_match; [discriminate|].
  by intros [= <- <-].
Qed.

(** C4. No two [addPost] calls are to produce the same id. When [uuidv4()]
    returns the same value [Sample.id2] twice, the [addPost] of lines
    208-231 creates alice's post and then bob's post with that one id, and
    bob's post replaces alice's in the store. On the same values of
    [uuidv4()] (and a third one, [Sample.id3]) the [addPost] of lines 54-76,
    which goes through [SecureUUIDGenerator], gives the two posts the ids
    [Sample.id2] and [Sample.id3]. *)
Theorem addPost_same_uuid_twice :
  Basic.addPost Sample.by_alice Sample.payload1 Sample.id2 ∅
  = (Ok (Sample.new_post Sample.by_alice),
     {[ Sample.id2 := Sample.new_post Sample.by_alice ]})
  ∧ Basic.addPost Sample.by_bob Sample.payload1 Sample.id2
      {[ Sample.id2 := Sample.new_post Sample.by_alice ]}
    = (Ok (Sample.new_post Sample.by_bob),
       <[ Sample.id2 := Sample.new_post Sample.by_bob ]>
         {[ Sample.id2 := Sample.new_post Sample.by_alice ]})
  ∧ Post.id (Sample.new_post Sample.by_alice)
    = Post.id (Sample.new_post Sample.by_bob)
  ∧ Sample.new_post Sample.by_alice ≠ Sample.new_post Sample.by_bob
  ∧ (<[ Sample.id2 := Sample.new_post Sample.by_bob ]>
       ({[ Sample.id2 := Sample.new_post Sample.by_alice ]}
          : gmap string Post.t)) !! Sample.id2
    = Some (Sample.new_post Sample.by_bob)
  ∧ Secure.created_ids
      [(Sample.by_alice, Secure.AddPost Sample.payload1);
       (Sample.by_bob, Secure.AddPost Sample.payload1)]
      [Sample.id2; Sample.id2; Sample.id3] Sample.state0
    = Some [Sample.id2; Sample.id3].
Proof.
  split; [reflexivity|]. split; [reflexivity|]. split; [reflexivity|].
  split; [discriminate|]. split; [apply lookup_insert_eq|].
  vm_compute. reflexivity.
Qed.

(** ** Refused calls change nothing *)

Lemma basic_addPost_err (ic : Ic) (payload : PostPayload.t) (uuid : string)
    (store store' : gmap string Post.t) (e : string) :
  Basic.addPost ic payload uuid store = (Err e, store') → store' = store.
Proof.
  unfold Basic.addPost. case_match; intros [= ]; congruence.
Qed.

Lemma basic_commentOnPost_err (id comment : string)
    (store store' : gmap string Post.t) (e : string) :
  Basic.commentOnPost id comment store = (Err e, store') → store' = store.
Proof.
  unfold Basic.commentOnPost. case_match; intros [= ]; congruence.
Qed.

Lemma basic_likePost_err (ic : Ic) (id : string)
    (store store' : gmap string Post.t) (e : string) :
  Basic.likePost ic id store = (Err e, store') → store' = store.
Proof.
  unfold Basic.likePost. repeat case_match; intros [= ]; congruence.
Qed.

Lemma basic_updatePost_err (ic : Ic) (id : string) (payload : PostPayload.t)
    (store store' : gmap string Post.t) (e : string) :
  Basic.updatePost ic id payload store = (Err e, store') → store' = store.
Proof.
  unfold Basic.updatePost. case_match; intros [= ]; congruence.
Qed.

(** [deletePost] of lines 294-299 calls [remove] before it knows whether the
    post is there; removing an absent key leaves the store as it is. *)
Lemma basic_deletePost_err (ic : Ic) (id : string)
    (store store' : gmap string Post.t) (e : string) :
  Basic.deletePost ic id store = (Err e, store') → store' = store.
Proof.
  unfold Basic.deletePost, StableBTreeMap.remove.
  destruct (store !! id) as [post|] eqn:Hst; intros [= ]; subst.
  by apply delete_id.
Qed.

Lemma secure_addPost_missing (ic : Ic) (payload : PostPayload.t)
    (draws : list string) (st : Secure.State) :
  PostPayload.title payload = "" ∨ PostPayload.body payload = ""
    ∨ PostPayload.imageURL payload = "" →
  Secure.addPost ic payload draws st
  = Some (Err "Missing required fields", st, draws).
Proof.
  intros Hmiss. unfold Secure.addPost. by rewrite missing_field.
Qed.

Lemma basic_addPost_missing (ic : Ic) (payload : PostPayload.t)
    (uuid : string) (store : gmap string Post.t) :
  PostPayload.title payload = "" ∨ PostPayload.body payload = ""
    ∨ PostPayload.imageURL payload = "" →
  Basic.addPost ic payload uuid store = (Err "Missing required fields", store).
Proof.
  intros Hmiss. unfold Basic.addPost. by rewrite missing_field.
Qed.

(** C5. Whenever a call returns an error, the state it leaves is the state
    it found: for [addPost] of the first listing (store and generator
    both), and for [addPost], [commentOnPost], [likePost], [updatePost] and
    [deletePost] of the second ([getPost] is a function of the store and has
    none to leave). And [addPost] with an empty title, body or image URL
    returns the error 'Missing required fields' and inserts nothing, in
    both listings. *)
Theorem error_leaves_state_unchanged :
  (∀ ic payload draws st e st' rest,
     Secure.addPost ic payload draws st = Some (Err e, st', rest) → st' = st)
  ∧ (∀ ic payload uuid store e store',
       Basic.addPost ic payload uuid store = (Err e, store') → store' = store)
  ∧ (∀ id comment store e store',
       Basic.commentOnPost id comment store = (Err e, store') → store' = store)
  ∧ (∀ ic id store e store',
       Basic.likePost ic id store = (Err e, store') → store' = store)
  ∧ (∀ ic id payload store e store',
       Basic.updatePost ic id payload store = (Err e, store') → store' = store)
  ∧ (∀ ic id store e store',
       Basic.deletePost ic id store = (Err e, store') → store' = store)
  ∧ (∀ ic payload draws st,
       PostPayload.title payload = "" ∨ PostPayload.body payload = ""
         ∨ PostPayload.imageURL payload = "" →
       Secure.addPost ic payload draws st
       = Some (Err "Missing required fields", st, draws))
  ∧ (∀ ic payload uuid store,
       PostPayload.title payload = "" ∨ PostPayload.body payload = ""
         ∨ PostPayload.imageURL payload = "" →
       Basic.addPost ic payload uuid store
       = (Err "Missing required fields", store)).
Proof.
  repeat split.
  - intros ic payload draws st e st' rest H.
    by apply secure_addPost_err_state in H as [-> _].
  - intros *. apply basic_addPost_err.
  - intros *. apply basic_commentOnPost_err.
  - intros *. apply basic_likePost_err.
  - intros *. apply basic_updatePost_err.
  - intros *. apply basic_deletePost_err.
  - intros *. apply secure_addPost_missing.
  - intros *. apply basic_addPost_missing.
Qed.

Lemma error_leaves_state_unchanged_witness :
  Basic.addPost Sample.by_bob Sample.no_title Sample.id2 Sample.store1
  = (Err "Missing required fields", Sample.store1)
  ∧ (Basic.likePost Sample.by_alice Sample.id1 Sample.store1).2
    = Sample.store1.
Proof.
  destruct error_leaves_state_unchanged
    as (_ & _ & _ & Hlike & _ & _ & _ & Hmiss).
  split.
  - apply Hmiss. left. reflexivity.
  - apply (Hlike Sample.by_alice Sample.id1 Sample.store1
             "Owners cannot like their post").
    reflexivity.
Defined.

(** ** [addPost] and then [getPost] *)

(** C6. With a title, a body and an image URL that are not empty, [addPost]
    of lines 208-231 succeeds, and [getPost] of lines 198-203 on the id of
    the post it returned gives that same post back: owned by the caller,
    with no likes, no comments and [updated_at] unset, created at the time
    of the call, carrying the payload. *)
Theorem addPost_then_getPost (ic : Ic) (payload : PostPayload.t)
    (uuid : string) (store : gmap string Post.t) :
  PostPayload.title payload ≠ "" →
  PostPayload.body payload ≠ "" →
  PostPayload.imageURL payload ≠ "" →
  let post :=
    {| Post.owner := caller ic;
       Post.id := uuid;
       Post.title := PostPayload.title payload;
       Post.body := PostPayload.body payload;
       Post.imageURL := PostPayload.imageURL payload;
       Post.likes := 0;
       Post.comments := [];
       Post.created_at := time ic;
       Post.updated_at := None |} in
  ∃ store',
    Basic.addPost ic payload uuid store = (Ok post, store')
    ∧ Basic.getPost (Post.id post) store' = Ok post.
Proof.
  intros Ht Hb Hi post. exists (<[uuid := post]> store).
  unfold Basic.addPost, Basic.getPost, StableBTreeMap.get, StableBTreeMap.insert.
  rewrite all_fields by done. simpl. split; [reflexivity|].
  by rewrite lookup_insert_eq.
Qed.

Lemma addPost_then_getPost_witness :
  ∃ store',
    Basic.addPost Sample.by_bob Sample.payload1 Sample.id2 Sample.store1
    = (Ok (Sample.new_post Sample.by_bob), store')
    ∧ Basic.getPost Sample.id2 store' = Ok (Sample.new_post Sample.by_bob).
Proof.
  apply (addPost_then_getPost Sample.by_bob Sample.payload1 Sample.id2 Sample.store1);
    discriminate.
Defined.

(** X19. With a title, a body and an image URL that are not empty, and as
    soon as [uuidv4()] returns a value the generator has not issued,
    [addPost] of lines 54-76 succeeds, and [getPost] on the id of the post
    it returned gives that post back: owned by the caller, with no likes, no
    comments and [updated_at] unset, created at the time of the call,
    carrying the payload. *)
Lemma secure_addPost_read_back (ic : Ic) (payload : PostPayload.t)
    (draws : list string) (st : Secure.State) :
  PostPayload.title payload ≠ "" →
  PostPayload.body payload ≠ "" →
  PostPayload.imageURL payload ≠ "" →
  (∃ u, u ∈ draws
        ∧ u ∉ Secure.generatedUUIDs (Secure.secureUUIDGenerator st)) →
  ∃ newUUID st' rest,
    let post :=
      {| Post.owner := caller ic;
         Post.id := newUUID;
         Post.title := PostPayload.title payload;
         Post.body := PostPayload.body payload;
         Post.imageURL := PostPayload.imageURL payload;
         Post.likes := 0;
         Post.comments := [];
         Post.created_at := time ic;
         Post.updated_at := None |} in
    Secure.addPost ic payload draws st = Some (Ok post, st', rest)
    ∧ Basic.getPost newUUID (Secure.postStorage st') = Ok post.
Proof.
  intros Ht Hb Hi Hfresh.
  destruct (generateUUID_returns _ _ Hfresh) as [[[u g] rest] Hgen].
  exists u. eexists. exists rest. simpl.
  unfold Secure.addPost. rewrite all_fields by done. rewrite Hgen.
  split; [reflexivity|]. simpl.
  unfold Basic.getPost, StableBTreeMap.get, StableBTreeMap.insert.
  by rewrite lookup_insert_eq.
Qed.

(** ** [commentOnPost] *)

Section commentOnPost.
Variables (id comment : string) (store : gmap string Post.t).

Let commented (post : Post.t) : Post.t :=
  {| Post.owner := Post.owner post;
     Post.id := Post.id post;
     Post.title := Post.title post;
     Post.body := Post.body post;
     Post.imageURL := Post.imageURL post;
     Post.likes := Post.likes post;
     Post.comments := Post.comments post ++ [comment];
     Post.created_at := Post.created_at post;
     Post.updated_at := Post.updated_at post |}.

Lemma commentOnPost_stored (post : Post.t) :
  store !! id = Some post →
  Basic.commentOnPost id comment store
  = (Ok (commented post), <[id := commented post]> store).
Proof.
  intros Hst. unfold Basic.commentOnPost, StableBTreeMap.get. by rewrite Hst.
Qed.

Lemma commentOnPost_absent :
  store !! id = None →
  Basic.commentOnPost id comment store = (Err "Post not found.", store).
Proof.
  intros Hst. unfold Basic.commentOnPost, StableBTreeMap.get. by rewrite Hst.
Qed.

Lemma commentOnPost_ok_inv (result : Post.t) (store' : gmap string Post.t) :
  Basic.commentOnPost id comment store = (Ok result, store') →
  ∃ post, store !! id = Some post ∧ result = commented post
          ∧ store' = <[id := commented post]> store.
Proof.
  destruct (store !! id) as [post|] eqn:Hst.
  - rewrite (commentOnPost_stored post Hst). intros [= <- <-]. by exists post.
  - rewrite (commentOnPost_absent Hst). discriminate.
Qed.
End commentOnPost.

(** C7. For a stored post, [commentOnPost] returns and stores under [id] a
    post whose comments are the former comments followed by the new one:
    one longer, every former comment at its former position, the new one
    last. For an id that is not in the store it returns the error
    'Post not found.' and the store is as before. *)
Theorem commentOnPost_appends (id comment : string)
    (store : gmap string Post.t) :
  (∀ post, store !! id = Some post →
     ∃ result store',
       Basic.commentOnPost id comment store = (Ok result, store')
       ∧ store' !! id = Some result
       ∧ Post.comments result = Post.comments post ++ [comment]
       ∧ length (Post.comments result) = S (length (Post.comments post))
       ∧ (∀ i c, Post.comments post !! i = Some c →
                 Post.comments result !! i = Some c)
       ∧ Post.comments result !! length (Post.comments post) = Some comment)
  ∧ (store !! id = None →
     Basic.commentOnPost id comment store = (Err "Post not found.", store)).
Proof.
  split; [|apply commentOnPost_absent].
  intros post Hst. rewrite (commentOnPost_stored id comment store post Hst).
  eexists _, _. split; [reflexivity|]. simpl.
  split; [apply lookup_insert_eq|]. split; [reflexivity|].
  split; [rewrite length_app; simpl; lia|]. split.
  - intros i c Hi. by apply lookup_app_l_Some.
  - apply list_lookup_middle. reflexivity.
Qed.

Lemma commentOnPost_appends_witness :
  ∃ result store',
    Basic.commentOnPost Sample.id1 "second" Sample.store1 = (Ok result, store')
    ∧ store' !! Sample.id1 = Some result
    ∧ Post.comments result = ["first"; "second"]
    ∧ length (Post.comments result) = 2
    ∧ (∀ i c, Post.comments Sample.post1 !! i = Some c →
              Post.comments result !! i = Some c)
    ∧ Post.comments result !! 1 = Some "second".
Proof.
  exact (proj1 (commentOnPost_appends Sample.id1 "second" Sample.store1)
           Sample.post1 eq_refl).
Defined.

(** C9. A successful [commentOnPost] changes the [comments] of the post it
    was called on and nothing else: [updated_at] is what it was (unset if it
    was unset), so are the seven other fields, and so is every other post of
    the store. *)
Theorem commentOnPost_keeps_updated_at (id comment : string)
    (store store' : gmap string Post.t) (post result : Post.t) :
  store !! id = Some post →
  Basic.commentOnPost id comment store = (Ok result, store') →
  Post.updated_at result = Post.updated_at post
  ∧ (Post.updated_at post = None → Post.updated_at result = None)
  ∧ Post.owner result = Post.owner post
  ∧ Post.id result = Post.id post
  ∧ Post.title result = Post.title post
  ∧ Post.body result = Post.body post
  ∧ Post.imageURL result = Post.imageURL post
  ∧ Post.likes result = Post.likes post
  ∧ Post.created_at result = Post.created_at post
  ∧ store' !! id = Some result
  ∧ (∀ other, other ≠ id → store' !! other = store !! other).
Proof.
  intros Hst Hrun.
  apply commentOnPost_ok_inv in Hrun as (post' & Hst' & -> & ->).
  assert (post' = post) as -> by congruence. simpl.
  repeat split; try done.
  - apply lookup_insert_eq.
  - intros other Hne. by apply lookup_insert_ne.
Qed.

Lemma commentOnPost_keeps_updated_at_witness :
  ∃ result store',
    Basic.commentOnPost Sample.id1 "second" Sample.store1 = (Ok result, store')
    ∧ Post.updated_at result = None.
Proof.
  eexists _, _. split; [reflexivity|].
  refine (proj1 (proj2 (commentOnPost_keeps_updated_at Sample.id1 "second"
    Sample.store1 _ Sample.post1 _ eq_refl eq_refl)) eq_refl).
Defined.

(** C10. [commentOnPost] does not look at the comment: on a stored post it
    succeeds whatever the text, the empty string included, which is then
    the last comment of the post; and when it returns an error the id is not
    in the store. *)
Theorem commentOnPost_any_comment (id : string) (store : gmap string Post.t) :
  (∀ comment post, store !! id = Some post →
     ∃ result store',
       Basic.commentOnPost id comment store = (Ok result, store')
       ∧ Post.comments result = Post.comments post ++ [comment])
  ∧ (∀ post, store !! id = Some post →
       ∃ result store',
         Basic.commentOnPost id "" store = (Ok result, store')
         ∧ Post.comments result = Post.comments post ++ [""]
         ∧ store' !! id = Some result)
  ∧ (∀ comment e store',
       Basic.commentOnPost id comment store = (Err e, store') →
       store !! id = None).
Proof.
  split; [|split].
  - intros comment post Hst.
    rewrite (commentOnPost_stored id comment store post Hst). by eexists _, _.
  - intros post Hst.
    rewrite (commentOnPost_stored id "" store post Hst).
    eexists _, _. split; [reflexivity|]. split; [reflexivity|].
    apply lookup_insert_eq.
  - intros comment e store'. destruct (store !! id) as [post|] eqn:Hst; [|done].
    rewrite (commentOnPost_stored id comment store post Hst). discriminate.
Qed.

Lemma commentOnPost_any_comment_witness :
  ∃ result store',
    Basic.commentOnPost Sample.id1 "" Sample.store1 = (Ok result, store')
    ∧ Post.comments result = ["first"; ""]
    ∧ store' !! Sample.id1 = Some result.
Proof.
  exact (proj1 (proj2 (commentOnPost_any_comment Sample.id1 Sample.store1))
           Sample.post1 eq_refl).
Defined.

(** ** Keys and ids *)

Lemma keyed_by_id_empty : keyed_by_id ∅.
Proof. intros key post Hst. by rewrite lookup_empty in Hst. Qed.

Lemma keyed_by_id_insert (m : gmap string Post.t) (key : string)
    (post : Post.t) :
  keyed_by_id m → Post.id post = key → keyed_by_id (<[key := post]> m).
Proof.
  intros Hm Hid k p. rewrite lookup_insert_Some.
  intros [[<- <-]|[_ Hst]]; [done|by apply Hm].
Qed.

Lemma keyed_by_id_delete (m : gmap string Post.t) (key : string) :
  keyed_by_id m → keyed_by_id (delete key m).
Proof.
  intros Hm k p. rewrite lookup_delete_Some. intros [_ Hst]. by apply Hm.
Qed.

(** X20. Every call of the second listing takes a store in which each
    post is kept under its own id to a store of the same kind, whatever it
    is called with and whether it succeeds or not; so [post.id], under
    which [likePost] and [updatePost] write back, is the key they read
    from. *)
Lemma basic_keyed_by_id (ic : Ic) (id comment uuid : string)
    (payload : PostPayload.t) (store : gmap string Post.t) :
  keyed_by_id store →
  keyed_by_id (Basic.addPost ic payload uuid store).2
  ∧ keyed_by_id (Basic.commentOnPost id comment store).2
  ∧ keyed_by_id (Basic.likePost ic id store).2
  ∧ keyed_by_id (Basic.updatePost ic id payload store).2
  ∧ keyed_by_id (Basic.deletePost ic id store).2.
Proof.
  intros Hm.
  unfold Basic.addPost, Basic.commentOnPost, Basic.likePost, Basic.updatePost,
    Basic.deletePost, StableBTreeMap.get, StableBTreeMap.insert,
    StableBTreeMap.remove.
  split; [case_match; [done|]; by apply keyed_by_id_insert|].
  destruct (store !! id) as [post|] eqn:Hst; simpl.
  - pose proof (Hm _ _ Hst) as Hid. split; [|split; [|split]].
    + by apply keyed_by_id_insert.
    + case_match; [done|]. by apply keyed_by_id_insert.
    + by apply keyed_by_id_insert.
    + by apply keyed_by_id_delete.
  - repeat split; try done. by apply keyed_by_id_delete.
Qed.

(** So does every call of the first listing. *)
Lemma secure_keyed_by_id (ic : Ic) (c : Secure.Call) (draws rest : list string)
    (st st' : Secure.State) (outcome : Outcome (Result Post.t string)) :
  keyed_by_id (Secure.postStorage st) →
  Secure.call ic c draws st = Some (outcome, st', rest) →
  keyed_by_id (Secure.postStorage st').
Proof.
  intros Hm. destruct c as [payload|id|id payload|id]; simpl.
  - destruct (Secure.addPost ic payload draws st) as [[[result s] d]|] eqn:Hadd;
      [|discriminate].
    intros [= <- <- <-]. revert Hadd.
    unfold Secure.addPost. case_match; [by intros [= <- <- <-]|].
    destruct (Secure.generateUUID _ draws) as [[[u g] r]|]; [|discriminate].
    intros [= <- <- <-]. simpl.
    by apply keyed_by_id_insert.
  - rewrite secure_likePost_throws. by intros [= <- <- <-].
  - rewrite secure_updatePost_throws. by intros [= <- <- <-].
  - rewrite secure_deletePost_throws. by intros [= <- <- <-].
Qed.

(** ** The owner of a post *)

Lemma same_origin_refl (post : Post.t) : same_origin post post.
Proof. by repeat split. Qed.

Lemma keeps_origin_refl (store : gmap string Post.t) : keeps_origin store store.
Proof. intros key before Hst. exists before. split; [done|apply same_origin_refl]. Qed.

Lemma keeps_origin_rewrite (store : gmap string Post.t) (key : string)
    (before after : Post.t) :
  store !! key = Some before →
  same_origin before after →
  keeps_origin store (<[key := after]> store).
Proof.
  intros Hst Hsame k p Hk. destruct (decide (key = k)) as [<-|Hne].
  - exists after. rewrite lookup_insert_eq. split; [done|]. congruence.
  - exists p. rewrite lookup_insert_ne by done. split; [done|apply same_origin_refl].
Qed.

(** The post a rewriting call returns is the post it read with some of
    [title], [body], [imageURL], [likes], [comments] and [updated_at]
    replaced. *)
Ltac origin_of_result :=
  intros Hst; unfold returns_origin_of, StableBTreeMap.get; simpl;
  rewrite Hst; repeat case_match; intros result Hout; try discriminate;
  injection Hout as <-; by repeat split.

Lemma basic_updatePost_result_origin (ic : Ic) (id : string)
    (payload : PostPayload.t) (store : gmap string Post.t) (post : Post.t) :
  store !! id = Some post →
  returns_origin_of post (Basic.updatePost ic id payload store).1.
Proof. unfold Basic.updatePost. origin_of_result. Qed.

Lemma basic_likePost_result_origin (ic : Ic) (id : string)
    (store : gmap string Post.t) (post : Post.t) :
  store !! id = Some post →
  returns_origin_of post (Basic.likePost ic id store).1.
Proof. unfold Basic.likePost. origin_of_result. Qed.

Lemma basic_commentOnPost_result_origin (id comment : string)
    (store : gmap string Post.t) (post : Post.t) :
  store !! id = Some post →
  returns_origin_of post (Basic.commentOnPost id comment store).1.
Proof. unfold Basic.commentOnPost. origin_of_result. Qed.

(** The store after a rewriting call: either the store before, or the store
    before with the post read replaced, under its key, by the post
    returned. *)
Ltac origin_of_store Hm :=
  unfold StableBTreeMap.get, StableBTreeMap.insert; simpl;
  match goal with
  | |- context [ ?store !! ?id ] =>
      let post := fresh "post" in
      let Hst := fresh "Hst" in
      destruct (store !! id) as [post|] eqn:Hst; simpl;
      [ try pose proof (Hm _ _ Hst);
        repeat case_match; simpl;
        first [ apply keeps_origin_refl
              | apply (keeps_origin_rewrite _ _ post);
                [ congruence | by repeat split ] ]
      | apply keeps_origin_refl ]
  end.

(** [commentOnPost] writes back under the [id] it read from. *)
Lemma basic_commentOnPost_keeps_origin (id comment : string)
    (store : gmap string Post.t) :
  keeps_origin store (Basic.commentOnPost id comment store).2.
Proof. unfold Basic.commentOnPost. origin_of_store I. Qed.

(** [updatePost] and [likePost] write back under [post.id], which is the
    key they read from when the store is keyed by id. *)
Lemma basic_updatePost_keeps_origin (ic : Ic) (id : string)
    (payload : PostPayload.t) (store : gmap string Post.t) :
  keyed_by_id store →
  keeps_origin store (Basic.updatePost ic id payload store).2.
Proof. intros Hm. unfold Basic.updatePost. origin_of_store Hm. Qed.

Lemma basic_likePost_keeps_origin (ic : Ic) (id : string)
    (store : gmap string Post.t) :
  keyed_by_id store →
  keeps_origin store (Basic.likePost ic id store).2.
Proof. intros Hm. unfold Basic.likePost. origin_of_store Hm. Qed.

(** C8. [updatePost], [likePost] and [commentOnPost] of lines 237-289
    never change the owner of a post, nor its id, nor its creation time.
    The post such a call returns and writes back has the [owner], [id] and
    [created_at] of the post stored under the id it was called with. After
    [commentOnPost] every post that was stored is still stored under its
    key with the same [owner], [id] and [created_at]; after [updatePost]
    and [likePost] too, on a store that keys each post by its id, which is
    how [addPost] fills it. *)
Theorem owner_never_changes (ic : Ic) (id comment : string)
    (payload : PostPayload.t) (store : gmap string Post.t) :
  (∀ post, store !! id = Some post →
     returns_origin_of post (Basic.updatePost ic id payload store).1
     ∧ returns_origin_of post (Basic.likePost ic id store).1
     ∧ returns_origin_of post (Basic.commentOnPost id comment store).1)
  ∧ keeps_origin store (Basic.commentOnPost id comment store).2
  ∧ (keyed_by_id store →
     keeps_origin store (Basic.updatePost ic id payload store).2
     ∧ keeps_origin store (Basic.likePost ic id store).2).
Proof.
  split; [|split].
  - intros post Hst. split; [|split].
    + by apply basic_updatePost_result_origin.
    + by apply basic_likePost_result_origin.
    + by apply basic_commentOnPost_result_origin.
  - apply basic_commentOnPost_keeps_origin.
  - intros Hm. split.
    + by apply basic_updatePost_keeps_origin.
    + by apply basic_likePost_keeps_origin.
Qed.

Lemma owner_never_changes_witness :
  keeps_origin Sample.store1
    (Basic.updatePost Sample.by_bob Sample.id1 Sample.payload1 Sample.store1).2
  ∧ ∀ result,
      (Basic.likePost Sample.by_bob Sample.id1 Sample.store1).1 = Ok result →
      Post.owner result = Sample.alice.
Proof.
  assert (keyed_by_id Sample.store1) as Hkeyed.
  { intros key post. unfold Sample.store1. rewrite lookup_singleton_Some.
    by intros [<- <-]. }
  destruct (owner_never_changes Sample.by_bob Sample.id1 "second"
              Sample.payload1 Sample.store1)
    as (Hret & _ & Hkeep).
  split.
  - by apply Hkeep.
  - intros result Hres.
    destruct (Hret Sample.post1 eq_refl) as (_ & Hlike & _).
    by destruct (Hlike result Hres) as (Hown & _ & _).
Defined.

(** ** Stores the canister can reach *)

(** Started on a store keyed by id (the empty one is), a sequence of calls
    of the first listing ends on a store keyed by id. *)
Lemma secure_run_keyed_by_id (calls : list (Ic * Secure.Call))
    (draws rest : list string) (st st' : Secure.State)
    (log : list (Secure.Call * Outcome (Result Post.t string))) :
  keyed_by_id (Secure.postStorage st) →
  Secure.run calls draws st = Some (log, st', rest) →
  keyed_by_id (Secure.postStorage st').
Proof.
  revert draws st log.
  induction calls as [|[ic c] later IH]; intros draws st log Hm; simpl.
  - by intros [= <- <- <-].
  - destruct (Secure.call ic c draws st) as [[[result st1] draws1]|] eqn:Hcall;
      [|discriminate].
    destruct (Secure.run later draws1 st1) as [[[log1 st2] draws2]|] eqn:Hrun;
      [|discriminate].
    intros [= <- <- <-]. eapply IH; [|exact Hrun].
    eapply secure_keyed_by_id; [exact Hm|exact Hcall].
Qed.

(** ** Reading the store *)

(** [getPost] answers with the stored post, or with an error when there is
    none. *)
Lemma getPost_lookup (id : string) (store : gmap string Post.t) :
  Basic.getPost id store
  = match store !! id with
    | Some post => Ok post
    | None => Err ("a post with id=" +:+ id +:+ " not found")
    end.
Proof. reflexivity. Qed.

(** X18. After a successful [deletePost] of lines 294-299, [getPost] on
    the same id answers that no post with that id is found. *)
Lemma deletePost_then_getPost (ic : Ic) (id : string) (post : Post.t)
    (store store' : gmap string Post.t) :
  Basic.deletePost ic id store = (Ok post, store') →
  Basic.getPost id store'
  = Err ("a post with id=" +:+ id +:+ " not found").
Proof.
  unfold Basic.deletePost, StableBTreeMap.remove.
  destruct (store !! id); intros [= <- <-].
  by rewrite getPost_lookup, lookup_delete_eq.
Qed.

(** X17. [getPosts] never fails, and a post is in the list it returns
    exactly when it is stored under some key. *)
Lemma getPosts_lists_store (store : gmap string Post.t) :
  ∃ posts, Basic.getPosts store = Ok posts
           ∧ ∀ post, post ∈ posts ↔ ∃ key, store !! key = Some post.
Proof.
  exists (StableBTreeMap.values store). split; [reflexivity|].
  intros post. unfold StableBTreeMap.values. rewrite list_elem_of_fmap. split.
  - intros ([key p] & -> & Hin). exists key. by apply elem_of_map_to_list.
  - intros [key Hst]. exists (key, post). split; [done|].
    by apply elem_of_map_to_list.
Qed.

(** * Further properties of the two listings *)

(** ** Ids that are not in the store *)

(** X3. Called with an id that is not in the store, every call of the
    second listing that takes an id and no comment answers with its own
    not-found message, whoever the caller is, and leaves the store as it
    was: [getPost], [likePost], [updatePost] and [deletePost]. *)
Theorem absent_id_not_found (ic : Ic) (id : string) (payload : PostPayload.t)
    (store : gmap string Post.t) :
  store !! id = None →
  Basic.getPost id store = Err ("a post with id=" +:+ id +:+ " not found")
  ∧ Basic.likePost ic id store
    = (Err ("couldn't update a post with id=" +:+ id +:+ ". post not found"),
       store)
  ∧ Basic.updatePost ic id payload store
    = (Err ("couldn't update a post with id=" +:+ id +:+ ". post not found"),
       store)
  ∧ Basic.deletePost ic id store
    = (Err ("couldn't delete a post with id=" +:+ id +:+ ". post not found."),
       store).
Proof.
  intros Hst.
  unfold Basic.getPost, Basic.likePost, Basic.updatePost, Basic.deletePost,
    StableBTreeMap.get, StableBTreeMap.remove. rewrite Hst.
  repeat split. f_equal. by apply delete_id.
Qed.

Lemma absent_id_not_found_witness :
  Basic.getPost Sample.id2 Sample.store1
  = Err ("a post with id=" +:+ Sample.id2 +:+ " not found")
  ∧ Basic.deletePost Sample.by_bob Sample.id2 Sample.store1
    = (Err ("couldn't delete a post with id=" +:+ Sample.id2
            +:+ ". post not found."),
       Sample.store1).
Proof.
  destruct (absent_id_not_found Sample.by_bob Sample.id2 Sample.payload1
              Sample.store1 eq_refl) as (Hget & _ & _ & Hdel).
  by split.
Defined.

(** ** The id generator *)

(** X4. [generateUUID] of lines 30-38 returns [newUUID] exactly when, among
    the values [uuidv4()] hands it, [newUUID] is the first one that is not
    among the ids generated so far: the values before it were all generated
    already and are dropped, the values after it are left for later calls,
    and the generator now also holds [newUUID]. *)
Theorem generateUUID_first_not_generated (g g' : Secure.SecureUUIDGenerator)
    (draws rest : list string) (newUUID : string) :
  Secure.generateUUID g draws = Some (newUUID, g', rest)
  ↔ (newUUID ∉ Secure.generatedUUIDs g)
    ∧ (∃ skipped : list string,
         draws = skipped ++ newUUID :: rest
         ∧ Forall (λ u, u ∈ Secure.generatedUUIDs g) skipped)
    ∧ g' = Secure.mkGenerator ({[newUUID]} ∪ Secure.generatedUUIDs g).
Proof.
  unfold Secure.generateUUID. split.
  - destruct (Secure.generateUUID_loop _ draws) as [[u r]|] eqn:Hloop;
      [|discriminate].
    intros [= <- <- <-].
    apply generateUUID_loop_fresh in Hloop as [Hfresh Hskip]. by repeat split.
  - intros (Hfresh & (skipped & -> & Hskip) & ->).
    assert (Secure.generateUUID_loop (Secure.generatedUUIDs g)
              (skipped ++ newUUID :: rest) = Some (newUUID, rest)) as ->;
      [|done].
    induction Hskip as [|u skipped Hu _ IH]; simpl.
    + by rewrite bool_decide_eq_false_2.
    + by rewrite bool_decide_eq_true_2.
Qed.

Lemma generateUUID_first_not_generated_witness :
  Secure.generateUUID (Secure.mkGenerator {[ Sample.id1; Sample.id2 ]})
    [Sample.id2; Sample.id1; Sample.id3; Sample.id2]
  = Some (Sample.id3,
          Secure.mkGenerator ({[ Sample.id3 ]} ∪ {[ Sample.id1; Sample.id2 ]}),
          [Sample.id2]).
Proof.
  apply (proj2 (generateUUID_first_not_generated _ _ _ _ _)).
  split; [|split; [|reflexivity]].
  - simpl. apply not_elem_of_union. split; apply not_elem_of_singleton;
      discriminate.
  - exists [Sample.id2; Sample.id1]. split; [reflexivity|].
    repeat constructor; simpl; set_solver.
Defined.

(** X5. [addPost] of lines 54-76 returns, with an error or with a post,
    exactly when a required field is empty or [uuidv4()] at some point
    hands the generator a value it has not generated yet. While every value
    it is handed was generated before and the payload is complete, the
    [do ... while] of lines 32-34 keeps drawing and the call does not
    return. *)
Theorem secure_addPost_returns_iff (ic : Ic) (payload : PostPayload.t)
    (draws : list string) (st : Secure.State) :
  is_Some (Secure.addPost ic payload draws st)
  ↔ (PostPayload.title payload = "" ∨ PostPayload.body payload = ""
       ∨ PostPayload.imageURL payload = "")
    ∨ ∃ u, u ∈ draws
           ∧ u ∉ Secure.generatedUUIDs (Secure.secureUUIDGenerator st).
Proof.
  unfold Secure.addPost.
  destruct (not_string (PostPayload.title payload)) eqn:Ht; simpl.
  { split; [|by eexists]. intros _. left. left. by apply not_string_spec. }
  destruct (not_string (PostPayload.body payload)) eqn:Hb; simpl.
  { split; [|by eexists]. intros _. left. right. left. by apply not_string_spec. }
  destruct (not_string (PostPayload.imageURL payload)) eqn:Hi; simpl.
  { split; [|by eexists]. intros _. left. right. right. by apply not_string_spec. }
  split.
  - destruct (Secure.generateUUID _ draws) as [[[u g] rest]|] eqn:Hgen.
    + intros _. right. unfold Secure.generateUUID in Hgen.
      destruct (Secure.generateUUID_loop _ draws) as [[v r]|] eqn:Hloop;
        [|discriminate].
      injection Hgen as -> _ _.
      apply generateUUID_loop_fresh in Hloop as (Hfresh & skipped & -> & _).
      exists u. split; [|done]. apply elem_of_app. right. by left.
    + by intros [x Hx].
  - intros [[H|[H|H]]|Hfresh].
    + apply not_string_spec in H. congruence.
    + apply not_string_spec in H. congruence.
    + apply not_string_spec in H. congruence.
    + destruct (generateUUID_returns _ _ Hfresh) as [[[u g] rest] ->].
      by eexists.
Qed.

Lemma secure_addPost_returns_iff_witness :
  Secure.addPost Sample.by_bob Sample.payload1 [Sample.id1; Sample.id1]
    Sample.state1 = None
  ∧ is_Some (Secure.addPost Sample.by_bob Sample.payload1
               [Sample.id1; Sample.id2] Sample.state1).
Proof.
  split; [reflexivity|].
  apply (proj2 (secure_addPost_returns_iff Sample.by_bob Sample.payload1
                  [Sample.id1; Sample.id2] Sample.state1)).
  right. exists Sample.id2. split.
  - apply elem_of_cons. right. apply elem_of_cons. by left.
  - simpl. apply not_elem_of_singleton. discriminate.
Defined.

(** ** Sequences of calls of the first listing *)

(** A successful [addPost] of lines 54-76 leaves the store it found with
    the new post put under the new id. *)
Lemma secure_addPost_ok_store (ic : Ic) (payload : PostPayload.t)
    (draws rest : list string) (st st' : Secure.State) (post : Post.t) :
  Secure.addPost ic payload draws st = Some (Ok post, st', rest) →
  Secure.postStorage st' = <[Post.id post := post]> (Secure.postStorage st).
Proof.
  unfold Secure.addPost, StableBTreeMap.insert. case_match; [discriminate|].
  destruct (Secure.generateUUID _ draws) as [[[u g] r]|]; [|discriminate].
  by intros [= <- <- <-].
Qed.

(** What one call does to a state whose stored ids are on record: every
    post that was stored is still stored, unchanged, and the stored ids are
    still on record. [addPost] puts its post under an id that was not on
    record, the other three calls throw before they write. *)
Lemma secure_call_posts_kept (ic : Ic) (c : Secure.Call)
    (draws rest : list string) (st st' : Secure.State)
    (outcome : Outcome (Result Post.t string)) :
  ids_on_record st →
  Secure.call ic c draws st = Some (outcome, st', rest) →
  (∀ key post, Secure.postStorage st !! key = Some post →
     Secure.postStorage st' !! key = Some post)
  ∧ ids_on_record st'.
Proof.
  intros Hrec. destruct c as [payload|id|id payload|id]; simpl.
  - destruct (Secure.addPost ic payload draws st) as [[[result s] d]|] eqn:Hadd;
      [|discriminate].
    intros [= <- <- <-]. destruct result as [post|e].
    + pose proof (secure_addPost_id_fresh _ _ _ _ _ _ _ Hadd) as [Hfresh Hgen].
      pose proof (secure_addPost_ok_store _ _ _ _ _ _ _ Hadd) as Hstore.
      split.
      * intros key stored Hst. rewrite Hstore, lookup_insert_ne; [done|].
        intros <-. apply Hfresh, Hrec. by eexists.
      * intros key. rewrite Hstore, Hgen.
        destruct (decide (Post.id post = key)) as [<-|Hne]; [set_solver|].
        rewrite lookup_insert_ne by done. intros Hkey%Hrec. set_solver.
    + by apply secure_addPost_err_state in Hadd as [-> _].
  - rewrite secure_likePost_throws. by intros [= <- <- <-].
  - rewrite secure_updatePost_throws. by intros [= <- <- <-].
  - rewrite secure_deletePost_throws. by intros [= <- <- <-].
Qed.

(** X6. Started on a state where every post is stored under its own id and
    every stored id is on the generator's record (the empty state is one),
    any sequence of [addPost], [likePost], [updatePost] and [deletePost]
    calls of the first listing ends on such a state. *)
Theorem secure_run_invariants (calls : list (Ic * Secure.Call))
    (draws rest : list string) (st st' : Secure.State)
    (log : list (Secure.Call * Outcome (Result Post.t string))) :
  keyed_by_id (Secure.postStorage st) →
  ids_on_record st →
  Secure.run calls draws st = Some (log, st', rest) →
  keyed_by_id (Secure.postStorage st') ∧ ids_on_record st'.
Proof.
  intros Hm Hrec Hrun. split; [by eapply secure_run_keyed_by_id|].
  clear Hm. revert draws st log Hrec Hrun.
  induction calls as [|[ic c] later IH]; intros draws st log Hrec; simpl.
  - by intros [= <- <- <-].
  - destruct (Secure.call ic c draws st) as [[[outcome st1] draws1]|] eqn:Hcall;
      [|discriminate].
    destruct (Secure.run later draws1 st1) as [[[log1 st2] draws2]|] eqn:Hrun;
      [|discriminate].
    intros [= <- <- <-]. eapply IH; [|exact Hrun].
    by destruct (secure_call_posts_kept _ _ _ _ _ _ _ Hrec Hcall).
Qed.

Lemma sample_state0_keyed : keyed_by_id (Secure.postStorage Sample.state0).
Proof. apply keyed_by_id_empty. Qed.

Lemma sample_state0_on_record : ids_on_record Sample.state0.
Proof. intros key [post Hpost]. simpl in Hpost. by rewrite lookup_empty in Hpost. Qed.

Lemma sample_state1_keyed : keyed_by_id (Secure.postStorage Sample.state1).
Proof.
  intros key post. simpl. unfold Sample.store1.
  rewrite lookup_singleton_Some. by intros [<- <-].
Qed.

Lemma sample_state1_on_record : ids_on_record Sample.state1.
Proof.
  intros key [post Hpost]. simpl in *. unfold Sample.store1 in Hpost.
  apply lookup_singleton_Some in Hpost as [<- _]. by apply elem_of_singleton.
Qed.

Lemma secure_run_invariants_witness :
  ∃ log st' rest,
    Secure.run Scenario.calls Scenario.draws Sample.state0
    = Some (log, st', rest)
    ∧ keyed_by_id (Secure.postStorage st') ∧ ids_on_record st'.
Proof.
  destruct (Secure.run Scenario.calls Scenario.draws Sample.state0)
    as [[[log st'] rest]|] eqn:Hrun.
  - exists log, st', rest. split; [reflexivity|].
    exact (secure_run_invariants Scenario.calls Scenario.draws rest
             Sample.state0 st' log sample_state0_keyed
             sample_state0_on_record Hrun).
  - vm_compute in Hrun. discriminate.
Defined.

(** X7. Over any sequence of [addPost], [likePost], [updatePost] and
    [deletePost] calls of the first listing, whatever values [uuidv4()]
    returns, the ids of the posts created are pairwise distinct, and none of
    them is an id the generator had on record before the sequence. *)
Theorem secure_created_ids_distinct (calls : list (Ic * Secure.Call))
    (draws : list string) (st : Secure.State) (ids : list string) :
  Secure.created_ids calls draws st = Some ids →
  NoDup ids
  ∧ ∀ u, u ∈ ids →
         u ∉ Secure.generatedUUIDs (Secure.secureUUIDGenerator st).
Proof.
  unfold Secure.created_ids.
  destruct (Secure.run calls draws st) as [[[log st'] rest]|] eqn:Hrun;
    [|discriminate].
  intros [= <-].
  destruct (secure_run_ids_distinct _ _ _ _ _ _ Hrun) as (Hnd & _ & Hnew).
  by split.
Qed.

Lemma secure_created_ids_distinct_witness :
  Secure.created_ids Scenario.calls Scenario.draws Sample.state0
  = Some [Sample.id2; Sample.id3]
  ∧ NoDup [Sample.id2; Sample.id3].
Proof.
  split; [reflexivity|].
  exact (proj1 (secure_created_ids_distinct Scenario.calls Scenario.draws
                  Sample.state0 [Sample.id2; Sample.id3] eq_refl)).
Defined.

(** X9. On a state whose stored ids are all on the generator's record,
    [addPost] of lines 54-76 never writes over a post: the id it gives the
    new post was not a key of the store, the new post is stored under it,
    every post that was stored is still stored unchanged, and the store
    holds one post more. *)
Theorem secure_addPost_never_overwrites (ic : Ic) (payload : PostPayload.t)
    (draws rest : list string) (st st' : Secure.State) (post : Post.t) :
  ids_on_record st →
  Secure.addPost ic payload draws st = Some (Ok post, st', rest) →
  Secure.postStorage st !! Post.id post = None
  ∧ Secure.postStorage st' !! Post.id post = Some post
  ∧ (∀ key stored, Secure.postStorage st !! key = Some stored →
       Secure.postStorage st' !! key = Some stored)
  ∧ size (Secure.postStorage st') = S (size (Secure.postStorage st)).
Proof.
  intros Hrec Hrun.
  pose proof (secure_addPost_id_fresh _ _ _ _ _ _ _ Hrun) as [Hfresh _].
  assert (Secure.postStorage st !! Post.id post = None) as Hnone.
  { destruct (Secure.postStorage st !! Post.id post) as [p|] eqn:Hst; [|done].
    destruct Hfresh. apply Hrec. by eexists. }
  revert Hrun. unfold Secure.addPost, StableBTreeMap.insert.
  case_match; [discriminate|].
  destruct (Secure.generateUUID _ draws) as [[[u g] r]|]; [|discriminate].
  intros [= <- <- <-]. simpl in *.
  split; [done|]. split; [apply lookup_insert_eq|]. split.
  - intros key stored Hst. rewrite lookup_insert_ne; [done|]. congruence.
  - by apply map_size_insert_None.
Qed.

Lemma secure_addPost_never_overwrites_witness :
  ∃ post st' rest,
    Secure.addPost Sample.by_bob Sample.payload1 [Sample.id1; Sample.id2]
      Sample.state1
    = Some (Ok post, st', rest)
    ∧ Post.id post = Sample.id2
    ∧ Secure.postStorage st' !! Sample.id1 = Some Sample.post1
    ∧ size (Secure.postStorage st') = 2.
Proof.
  eexists _, _, _. split; [reflexivity|]. split; [reflexivity|].
  pose proof (secure_addPost_never_overwrites Sample.by_bob Sample.payload1
                [Sample.id1; Sample.id2] _ Sample.state1 _ _
                sample_state1_on_record eq_refl) as (_ & _ & Hkeep & Hsize).
  split.
  - apply Hkeep. reflexivity.
  - rewrite Hsize. reflexivity.
Defined.

(** X10. Over any sequence of [addPost], [likePost], [updatePost] and
    [deletePost] calls of the first listing, started on a state whose
    stored ids are on the generator's record, every post that is in the
    store stays in the store under its key exactly as it is: [addPost] only
    adds posts under new ids, and the three other calls throw before they
    write, so that no post is ever liked, edited or deleted. *)
Theorem secure_run_posts_unchanged (calls : list (Ic * Secure.Call))
    (draws rest : list string) (st st' : Secure.State)
    (log : list (Secure.Call * Outcome (Result Post.t string)))
    (key : string) (post : Post.t) :
  ids_on_record st →
  Secure.run calls draws st = Some (log, st', rest) →
  Secure.postStorage st !! key = Some post →
  Secure.postStorage st' !! key = Some post.
Proof.
  revert draws st log.
  induction calls as [|[ic c] later IH]; intros draws st log Hrec; simpl.
  - by intros [= <- <- <-].
  - destruct (Secure.call ic c draws st) as [[[outcome st1] draws1]|] eqn:Hcall;
      [|discriminate].
    destruct (Secure.run later draws1 st1) as [[[log1 st2] draws2]|] eqn:Hrun;
      [|discriminate].
    intros [= <- <- <-] Hst.
    destruct (secure_call_posts_kept _ _ _ _ _ _ _ Hrec Hcall) as [Hkept Hrec1].
    eapply IH; [exact Hrec1|exact Hrun|by apply Hkept].
Qed.

Lemma secure_run_posts_unchanged_witness :
  ∃ log st' rest,
    Secure.run
      [ (Sample.by_bob, Secure.LikePost Sample.id1);
        (Sample.by_alice, Secure.UpdatePost Sample.id1 Sample.payload1);
        (Sample.by_bob, Secure.AddPost Sample.payload1);
        (Sample.by_alice, Secure.DeletePost Sample.id1) ]
      [Sample.id1; Sample.id2] Sample.state1
    = Some (log, st', rest)
    ∧ Secure.postStorage st' !! Sample.id1 = Some Sample.post1.
Proof.
  eexists _, _, _. split; [reflexivity|].
  exact (secure_run_posts_unchanged
           [ (Sample.by_bob, Secure.LikePost Sample.id1);
             (Sample.by_alice, Secure.UpdatePost Sample.id1 Sample.payload1);
             (Sample.by_bob, Secure.AddPost Sample.payload1);
             (Sample.by_alice, Secure.DeletePost Sample.id1) ]
           [Sample.id1; Sample.id2] _ Sample.state1 _ _ Sample.id1
           Sample.post1 sample_state1_on_record eq_refl eq_refl).
Defined.

(** ** Calls that rewrite a post *)

Lemma only_touches_same (id : string) (store : gmap string Post.t) :
  only_touches id store store.
Proof. by split. Qed.

Lemma only_touches_rewrite (id : string) (store : gmap string Post.t)
    (before after : Post.t) :
  store !! id = Some before →
  only_touches id store (<[id := after]> store).
Proof.
  intros Hst. split.
  - rewrite dom_insert_L. apply elem_of_dom_2 in Hst. set_solver.
  - intros other Hne. by apply lookup_insert_ne.
Qed.

Ltac touches_one Hm :=
  unfold StableBTreeMap.get, StableBTreeMap.insert; simpl;
  match goal with
  | |- context [ ?store !! ?id ] =>
      let post := fresh "post" in
      let Hst := fresh "Hst" in
      destruct (store !! id) as [post|] eqn:Hst; simpl;
      [ try rewrite (Hm _ _ Hst);
        repeat case_match; simpl;
        first [ apply only_touches_same
              | by apply (only_touches_rewrite _ _ post) ]
      | apply only_touches_same ]
  end.

(** X11. On a store keyed by id, [likePost], [updatePost] and
    [commentOnPost] of lines 237-289 neither add nor remove a post and
    leave every post but the one under [id] exactly as it is, whether they
    succeed or not. *)
Theorem rewriting_calls_touch_one_post (ic : Ic) (id comment : string)
    (payload : PostPayload.t) (store : gmap string Post.t) :
  keyed_by_id store →
  only_touches id store (Basic.likePost ic id store).2
  ∧ only_touches id store (Basic.updatePost ic id payload store).2
  ∧ only_touches id store (Basic.commentOnPost id comment store).2.
Proof.
  intros Hm. split; [|split].
  - unfold Basic.likePost. touches_one Hm.
  - unfold Basic.updatePost. touches_one Hm.
  - unfold Basic.commentOnPost. touches_one Hm.
Qed.

Lemma rewriting_calls_touch_one_post_witness :
  only_touches Sample.id1 Sample.store1
    (Basic.likePost Sample.by_bob Sample.id1 Sample.store1).2
  ∧ only_touches Sample.id1 Sample.store1
      (Basic.commentOnPost Sample.id1 "second" Sample.store1).2.
Proof.
  destruct (rewriting_calls_touch_one_post Sample.by_bob Sample.id1 "second"
              Sample.payload1 Sample.store1 sample_state1_keyed)
    as (Hlike & _ & Hcomment).
  by split.
Defined.

(** X12. [likePost] of lines 261-276 keeps no record of who liked a post:
    a caller who is not the owner can like the same post again, and each
    call counts. On a post stored under its id whose likes are a count
    below 2^53 - 1, up to where a JavaScript number counts in steps of one,
    two calls by the same caller both succeed and leave the post with two
    likes more, [updated_at] being the time of the second call. *)
Theorem likePost_twice_counts_twice (ic ic' : Ic) (id : string)
    (post : Post.t) (store : gmap string Post.t) :
  store !! id = Some post →
  Post.id post = id →
  (0 ≤ Post.likes post < 2 ^ 53 - 1)%Z →
  caller ic ≠ Post.owner post →
  caller ic' = caller ic →
  ∃ once twice,
    Post.likes twice = (Post.likes post + 2)%Z
    ∧ Post.updated_at twice = Some (time ic')
    ∧ Basic.likePost ic id store = (Ok once, <[id := once]> store)
    ∧ Basic.likePost ic' id (<[id := once]> store)
      = (Ok twice, <[id := twice]> store).
Proof.
  intros Hst Hid Hcount Hne Hsame.
  assert (caller ic' ≠ Post.owner post) as Hne' by congruence.
  subst id.
  exists {| Post.owner := Post.owner post;
            Post.id := Post.id post;
            Post.title := Post.title post;
            Post.body := Post.body post;
            Post.imageURL := Post.imageURL post;
            Post.likes := (Post.likes post + 1)%Z;
            Post.comments := Post.comments post;
            Post.created_at := Post.created_at post;
            Post.updated_at := Some (time ic) |},
         {| Post.owner := Post.owner post;
            Post.id := Post.id post;
            Post.title := Post.title post;
            Post.body := Post.body post;
            Post.imageURL := Post.imageURL post;
            Post.likes := (Post.likes post + 1 + 1)%Z;
            Post.comments := Post.comments post;
            Post.created_at := Post.created_at post;
            Post.updated_at := Some (time ic') |}.
  unfold Basic.likePost, StableBTreeMap.get, StableBTreeMap.insert. simpl.
  rewrite Hst, lookup_insert_eq. simpl.
  rewrite (eqb_toString_diff (Post.owner post) (caller ic)) by done.
  rewrite (eqb_toString_diff (Post.owner post) (caller ic')) by done.
  rewrite insert_insert_eq.
  split; [lia|]. repeat split.
Qed.

Lemma likePost_twice_counts_twice_witness :
  ∃ once twice,
    Post.likes twice = 2%Z
    ∧ Basic.likePost Sample.by_bob Sample.id1 Sample.store1
      = (Ok once, <[Sample.id1 := once]> Sample.store1)
    ∧ Basic.likePost Sample.by_bob Sample.id1 (<[Sample.id1 := once]> Sample.store1)
      = (Ok twice, <[Sample.id1 := twice]> Sample.store1).
Proof.
  destruct (likePost_twice_counts_twice Sample.by_bob Sample.by_bob Sample.id1
              Sample.post1 Sample.store1)
    as (once & twice & Hlikes & _ & Hfirst & Hsecond);
    [reflexivity|reflexivity|simpl; lia|discriminate|reflexivity|].
  exists once, twice. split; [exact Hlikes|]. by split.
Defined.

(** X21. [likePost] of lines 261-276 on a stored post whose likes are a
    count below 2^53, up to where a JavaScript number counts in steps of
    one: called by anyone but the owner it returns the post with [likes]
    one higher and [updated_at] set to the time of the call, every other
    field as it was, and stores it under the post's id; called by the owner
    it returns the error that owners cannot like their post and the store
    is as before. *)
Theorem basic_likePost_counts (ic : Ic) (id : string) (post : Post.t)
    (store : gmap string Post.t) :
  store !! id = Some post →
  (0 ≤ Post.likes post < 2 ^ 53)%Z →
  let liked :=
    {| Post.owner := Post.owner post;
       Post.id := Post.id post;
       Post.title := Post.title post;
       Post.body := Post.body post;
       Post.imageURL := Post.imageURL post;
       Post.likes := (Post.likes post + 1)%Z;
       Post.comments := Post.comments post;
       Post.created_at := Post.created_at post;
       Post.updated_at := Some (time ic) |} in
  (caller ic ≠ Post.owner post →
     Basic.likePost ic id store = (Ok liked, <[Post.id post := liked]> store)
     ∧ <[Post.id post := liked]> store !! Post.id post = Some liked
     ∧ (0 < Post.likes liked ≤ 2 ^ 53)%Z)
  ∧ (caller ic = Post.owner post →
     Basic.likePost ic id store = (Err "Owners cannot like their post", store)).
Proof.
  intros Hst Hcount liked.
  destruct (basic_likePost_stored ic id post store Hst) as [Hlike Hown].
  split; [|exact Hown].
  intros Hne. split; [by apply Hlike|]. split; [apply lookup_insert_eq|].
  simpl. lia.
Qed.

Lemma basic_likePost_counts_witness :
  Basic.likePost Sample.by_bob Sample.id1 Sample.store1
  = (Ok {| Post.owner := Sample.alice; Post.id := Sample.id1;
           Post.title := "T"; Post.body := "B"; Post.imageURL := "I";
           Post.likes := 1; Post.comments := ["first"];
           Post.created_at := 100%N; Post.updated_at := Some 300%N |},
     <[Sample.id1 :=
         {| Post.owner := Sample.alice; Post.id := Sample.id1;
            Post.title := "T"; Post.body := "B"; Post.imageURL := "I";
            Post.likes := 1; Post.comments := ["first"];
            Post.created_at := 100%N; Post.updated_at := Some 300%N |}]>
       Sample.store1)
  ∧ Basic.likePost Sample.by_alice Sample.id1 Sample.store1
    = (Err "Owners cannot like their post", Sample.store1).
Proof.
  split.
  - destruct (basic_likePost_counts Sample.by_bob Sample.id1 Sample.post1
                Sample.store1 eq_refl) as [Hlike _]; [simpl; lia|].
    destruct Hlike as [Hrun _]; [discriminate|]. exact Hrun.
  - destruct (basic_likePost_counts Sample.by_alice Sample.id1 Sample.post1
                Sample.store1 eq_refl) as [_ Hown]; [simpl; lia|].
    by apply Hown.
Defined.

(** X13. On a store keyed by id, liking a post and commenting on it can be
    done in either order: [likePost] then [commentOnPost] leaves the same
    store as [commentOnPost] then [likePost], whether the like is accepted
    or refused and whether the id is in the store or not. *)
Theorem likePost_commentOnPost_commute (ic : Ic) (id comment : string)
    (store : gmap string Post.t) :
  keyed_by_id store →
  (Basic.commentOnPost id comment (Basic.likePost ic id store).2).2
  = (Basic.likePost ic id (Basic.commentOnPost id comment store).2).2.
Proof.
  intros Hm. destruct (store !! id) as [post|] eqn:Hst.
  - pose proof (Hm _ _ Hst) as Hid. subst id.
    unfold Basic.commentOnPost, Basic.likePost, StableBTreeMap.get,
      StableBTreeMap.insert.
    rewrite Hst. simpl. rewrite lookup_insert_eq. simpl.
    destruct (String.eqb (toString (Post.owner post)) (toString (caller ic)));
      simpl.
    + by rewrite Hst.
    + rewrite lookup_insert_eq. simpl. by rewrite !insert_insert_eq.
  - unfold Basic.commentOnPost, Basic.likePost, StableBTreeMap.get.
    rewrite Hst. simpl. by rewrite Hst.
Qed.

Lemma likePost_commentOnPost_commute_witness :
  (Basic.commentOnPost Sample.id1 "second"
     (Basic.likePost Sample.by_bob Sample.id1 Sample.store1).2).2
  = (Basic.likePost Sample.by_bob Sample.id1
       (Basic.commentOnPost Sample.id1 "second" Sample.store1).2).2.
Proof.
  exact (likePost_commentOnPost_commute Sample.by_bob Sample.id1 "second"
           Sample.store1 sample_state1_keyed).
Defined.

(** ** Listing the posts *)

(** X14. After [addPost] of lines 208-231 has created a post under an id
    that was not in the store, [getPosts] lists that post and the posts it
    listed before, each as often as before, and nothing else. *)
Theorem getPosts_after_addPost (ic : Ic) (payload : PostPayload.t)
    (uuid : string) (store store' : gmap string Post.t)
    (post : Post.t) (before after : list Post.t) :
  store !! uuid = None →
  Basic.addPost ic payload uuid store = (Ok post, store') →
  Basic.getPosts store = Ok before →
  Basic.getPosts store' = Ok after →
  after ≡ₚ post :: before.
Proof.
  intros Hnone Hadd [= <-] [= <-].
  apply basic_addPost_id in Hadd as [_ ->].
  unfold StableBTreeMap.values.
  by rewrite (map_to_list_insert store uuid post Hnone).
Qed.

Lemma getPosts_after_addPost_witness :
  ∃ after,
    Basic.getPosts
      (Basic.addPost Sample.by_bob Sample.payload1 Sample.id2 Sample.store1).2
    = Ok after
    ∧ after ≡ₚ [Sample.new_post Sample.by_bob; Sample.post1].
Proof.
  eexists. split; [reflexivity|].
  apply (getPosts_after_addPost Sample.by_bob Sample.payload1 Sample.id2
           Sample.store1
           (Basic.addPost Sample.by_bob Sample.payload1 Sample.id2
              Sample.store1).2
           (Sample.new_post Sample.by_bob) [Sample.post1]);
    reflexivity.
Defined.

(** X15. After a successful [deletePost] of lines 294-299, [getPosts] lists
    what it listed before less one occurrence of the post returned. *)
Theorem getPosts_after_deletePost (ic : Ic) (id : string)
    (store store' : gmap string Post.t) (deleted : Post.t)
    (before after : list Post.t) :
  Basic.deletePost ic id store = (Ok deleted, store') →
  Basic.getPosts store = Ok before →
  Basic.getPosts store' = Ok after →
  before ≡ₚ deleted :: after.
Proof.
  intros Hdel [= <-] [= <-]. revert Hdel.
  unfold Basic.deletePost, StableBTreeMap.remove, StableBTreeMap.values.
  destruct (store !! id) as [post|] eqn:Hst; intros [= <- <-].
  by rewrite <- (map_to_list_delete store id post Hst).
Qed.

Lemma getPosts_after_deletePost_witness :
  ∃ after,
    Basic.getPosts (Basic.deletePost Sample.by_bob Sample.id1 Sample.store1).2
    = Ok after
    ∧ [Sample.post1] ≡ₚ Sample.post1 :: after.
Proof.
  eexists. split; [reflexivity|].
  apply (getPosts_after_deletePost Sample.by_bob Sample.id1 Sample.store1
           (Basic.deletePost Sample.by_bob Sample.id1 Sample.store1).2
           Sample.post1 [Sample.post1]); reflexivity.
Defined.

Lemma deletePost_then_getPost_witness :
  Basic.getPost Sample.id1
    (Basic.deletePost Sample.by_bob Sample.id1 Sample.store1).2
  = Err ("a post with id=" +:+ Sample.id1 +:+ " not found").
Proof.
  apply (deletePost_then_getPost Sample.by_bob Sample.id1 Sample.post1
           Sample.store1
           (Basic.deletePost Sample.by_bob Sample.id1 Sample.store1).2).
  reflexivity.
Defined.

Lemma secure_addPost_read_back_witness :
  ∃ newUUID st' rest,
    Secure.addPost Sample.by_bob Sample.payload1 [Sample.id1; Sample.id2]
      Sample.state1
    = Some (Ok {| Post.owner := Sample.bob; Post.id := newUUID;
                  Post.title := "T2"; Post.body := "B2";
                  Post.imageURL := "I2"; Post.likes := 0;
                  Post.comments := []; Post.created_at := 300%N;
                  Post.updated_at := None |}, st', rest)
    ∧ Basic.getPost newUUID (Secure.postStorage st')
      = Ok {| Post.owner := Sample.bob; Post.id := newUUID;
              Post.title := "T2"; Post.body := "B2";
              Post.imageURL := "I2"; Post.likes := 0;
              Post.comments := []; Post.created_at := 300%N;
              Post.updated_at := None |}.
Proof.
  apply (secure_addPost_read_back Sample.by_bob Sample.payload1
           [Sample.id1; Sample.id2] Sample.state1); try discriminate.
  exists Sample.id2. split.
  - apply elem_of_cons. right. apply elem_of_cons. by left.
  - simpl. apply not_elem_of_singleton. discriminate.
Defined.

Lemma basic_keyed_by_id_witness :
  keyed_by_id
    (Basic.addPost Sample.by_bob Sample.payload1 Sample.id2 Sample.store1).2
  ∧ keyed_by_id (Basic.likePost Sample.by_bob Sample.id1 Sample.store1).2.
Proof.
  destruct (basic_keyed_by_id Sample.by_bob Sample.id1 "second" Sample.id2
              Sample.payload1 Sample.store1 sample_state1_keyed)
    as (Hadd & _ & Hlike & _).
  by split.
Defined.

(** ** The random bytes handed to [uuid] *)

Lemma fill_random_length (random : nat → Q) (count i : nat) (array : list Z) :
  length (fill_random random i count array) = length array.
Proof.
  revert i array. induction count as [|count IH]; intros i array; simpl.
  - reflexivity.
  - by rewrite IH, length_insert.
Qed.

(** The loop writes slots [i] to [i + count - 1] and no other. *)
Lemma fill_random_lookup (random : nat → Q) (count i j : nat)
    (array : list Z) :
  (i + count ≤ length array)%nat →
  fill_random random i count array !! j
  = if decide (i ≤ j < i + count)%nat
    then Some (ToUint8 (Qfloor (random j * 256)))
    else array !! j.
Proof.
  revert i array. induction count as [|count IH]; intros i array Hlen; simpl.
  - case_decide; [lia|done].
  - rewrite IH by (rewrite length_insert; lia).
    destruct (decide (i = j)) as [->|Hne].
    + rewrite list_lookup_insert_eq by lia.
      repeat case_decide; try lia; done.
    + rewrite list_lookup_insert_ne by done.
      repeat case_decide; try lia; done.
Qed.

Lemma floor_256 (r : Q) :
  (0 <= r)%Q → (r < 1)%Q → (0 ≤ Qfloor (r * 256) < 256)%Z.
Proof.
  intros H0 H1. split.
  - change 0%Z with (Qfloor 0). apply Qfloor_resp_le.
    apply Qmult_le_0_compat; [done|discriminate].
  - rewrite Zlt_Qlt. eapply Qle_lt_trans; [apply Qfloor_le|].
    change (inject_Z 256) with (1 * 256)%Q.
    apply Qmult_lt_compat_r; [reflexivity|done].
Qed.

(** X16. Whatever array it is called with, the [getRandomValues] of lines
    303-311 returns 32 bytes, and as [Math.random()] returns numbers from 0
    up to but not including 1, byte [i] is the integer part of 256 times
    the number drawn for it: a value from 0 to 255 that the [Uint8Array]
    stores as it is, and no slot keeps the 0 it was created with unless
    that is what was drawn. *)
Theorem getRandomValues_bytes (random : nat → Q) :
  (∀ i, (i < 32)%nat → (0 <= random i)%Q ∧ (random i < 1)%Q) →
  length (getRandomValues random) = 32%nat
  ∧ ∀ i, (i < 32)%nat →
      getRandomValues random !! i = Some (Qfloor (random i * 256))
      ∧ (0 ≤ Qfloor (random i * 256) < 256)%Z.
Proof.
  intros Hrange. unfold getRandomValues. split.
  - by rewrite fill_random_length.
  - intros i Hi. destruct (Hrange i Hi) as [H0 H1].
    pose proof (floor_256 (random i) H0 H1) as Hbyte.
    split; [|exact Hbyte].
    rewrite fill_random_lookup by (simpl; lia).
    rewrite decide_True by (simpl; lia).
    unfold ToUint8. by rewrite Z.mod_small.
Qed.

Lemma getRandomValues_bytes_witness :
  length (getRandomValues (λ i, (inject_Z (Z.of_nat i) / 32)%Q)) = 32%nat
  ∧ getRandomValues (λ i, (inject_Z (Z.of_nat i) / 32)%Q) !! 5%nat = Some 40%Z.
Proof.
  assert (∀ i, (i < 32)%nat →
            (0 <= inject_Z (Z.of_nat i) / 32)%Q
            ∧ (inject_Z (Z.of_nat i) / 32 < 1)%Q) as Hrange.
  { intros i Hi. split.
    - apply Qle_shift_div_l; [reflexivity|].
      rewrite Qmult_0_l. change 0%Q with (inject_Z 0).
      rewrite <- Zle_Qle. lia.
    - apply Qlt_shift_div_r; [reflexivity|].
      rewrite Qmult_1_l. change 32%Q with (inject_Z 32).
      rewrite <- Zlt_Qlt. lia. }
  destruct (getRandomValues_bytes _ Hrange) as [Hlen Hbytes].
  split; [exact Hlen|].
  destruct (Hbytes 5%nat) as [Hfive _]; [lia|]. exact Hfive.
Defined.
